(** * Lead management backend: list query, single lookup and analytics

    A shallow embedding of [controllers/lead.controller] (getLeads,
    getLeadById, getAnalytics) and [validations/lead.validation]
    (leadQuerySchema, leadIdSchema), with the parts of the record store
    (Prisma over MongoDB), of zod and of JavaScript they rely on.

    Conventions of the embedding:
    - a JavaScript string is the [string] of the bytes of its UTF-8
      encoding; case folding is the ASCII one;
    - [Number] of a string is the nearest IEEE double, kept as an exact
      rational; [page], [limit], counts and offsets are integers, and their
      arithmetic is exact (the safe-integer range of doubles);
    - [Lead.value] is a double (a Prisma [Float]), kept as the rational
      it is; the store answers [_sum] with the double nearest the sum of
      the values and [_avg] with that double divided by the count, as
      doubles divide;
    - the record store is the list of its documents in the store's own
      (natural) order; reads return it unchanged, take any offset that is
      not negative, and yield groups in the order their keys first occur;
      a sort keeps no promise on the order of equal keys. *)

From Stdlib Require Import ZArith QArith Qround Qabs Qpower String Ascii List Lia Lqa.
From stdpp Require Import base gmap strings list fin_maps sorting.


(** ** JavaScript numbers and [Number(string)] *)

Module JS.

Inductive JSNumber : Type :=
| NaN
| PosInfinity
| NegInfinity
| Finite (q : Q).

(** Round a non-negative rational to the nearest integer, ties to even. *)
Definition roundHalfEven (q : Q) : Z :=
  let f := Qfloor q in
  match Qcompare (q - inject_Z f) (1 # 2) with
  | Lt => f
  | Gt => (f + 1)%Z
  | Eq => if Z.even f then f else (f + 1)%Z
  end.

(** [floor (log2 q)] for [0 < q]. *)
Definition ilog2 (q : Q) : Z :=
  let e := (Z.log2 (Qnum q) - Z.log2 (Zpos (Qden q)))%Z in
  if Qle_bool (Qpower 2 e) q then e else (e - 1)%Z.

(** The double nearest to a rational: 53 bits of precision, smallest
    exponent -1074, overflow to an infinity from 2^1024 on. *)
Definition roundDouble (q : Q) : JSNumber :=
  if Qeq_bool q 0 then Finite 0
  else
    let a := Qabs q in
    let p := Z.max (ilog2 a - 52) (-1074) in
    let v := (inject_Z (roundHalfEven (a / Qpower 2 p)) * Qpower 2 p)%Q in
    if Qle_bool (Qpower 2 1024) v
    then (if Qle_bool 0 q then PosInfinity else NegInfinity)
    else Finite (Qred (if Qle_bool 0 q then v else - v)).

(** StrWhiteSpaceChar, as code points: WhiteSpace (TAB, VT, FF, ZWNBSP and
    the space separators of Unicode, category Zs) and LineTerminator (LF,
    CR, LS, PS). *)
Definition whiteSpaceCodePoints : list N :=
  [ 0x0009; 0x000B; 0x000C; 0xFEFF;
    0x0020; 0x00A0; 0x1680;
    0x2000; 0x2001; 0x2002; 0x2003; 0x2004; 0x2005; 0x2006; 0x2007; 0x2008;
    0x2009; 0x200A; 0x202F; 0x205F; 0x3000;
    0x000A; 0x000D; 0x2028; 0x2029 ]%N.

(** The UTF-8 bytes of a code point of the basic plane. *)
Definition utf8 (c : N) : list ascii :=
  if (c <? 0x80)%N then [ascii_of_N c]
  else if (c <? 0x800)%N then
    [ascii_of_N (0xC0 + c / 64); ascii_of_N (0x80 + c mod 64)]
  else
    [ascii_of_N (0xE0 + c / 4096); ascii_of_N (0x80 + (c / 64) mod 64);
     ascii_of_N (0x80 + c mod 64)].

Definition whiteSpace : list (list ascii) := utf8 <$> whiteSpaceCodePoints.

(** What follows [p] in [cs], when [cs] starts with [p]. *)
Fixpoint stripPrefix (p cs : list ascii) : option (list ascii) :=
  match p, cs with
  | [], _ => Some cs
  | a :: p', c :: cs' => if (a =? c)%char then stripPrefix p' cs' else None
  | _ :: _, [] => None
  end.

(** What follows the first of [cs] when that is one of [ws]. *)
Definition stripOne (ws : list (list ascii)) (cs : list ascii)
    : option (list ascii) :=
  head (omap (λ w, stripPrefix w cs) ws).

(** [cs] without the [ws] it starts with; a step removes a byte or more,
    so [length cs] steps are enough. *)
Fixpoint stripAll (ws : list (list ascii)) (steps : nat) (cs : list ascii)
    : list ascii :=
  match steps with
  | 0 => cs
  | S steps' =>
      match stripOne ws cs with
      | Some cs' => stripAll ws steps' cs'
      | None => cs
      end
  end.

Definition trimStart (cs : list ascii) : list ascii :=
  stripAll whiteSpace (length cs) cs.

Definition trimEnd (cs : list ascii) : list ascii :=
  rev (stripAll ((λ w, rev w) <$> whiteSpace) (length cs) (rev cs)).

Definition trim (cs : list ascii) : list ascii := trimEnd (trimStart cs).

Definition decimalDigit (c : ascii) : option Z :=
  let n := nat_of_ascii c in
  if (48 <=? n) && (n <=? 57) then Some (Z.of_nat (n - 48)) else None.

Definition hexDigit (c : ascii) : option Z :=
  let n := nat_of_ascii c in
  if (48 <=? n) && (n <=? 57) then Some (Z.of_nat (n - 48))
  else if (97 <=? n) && (n <=? 102) then Some (Z.of_nat (n - 87))
  else if (65 <=? n) && (n <=? 70) then Some (Z.of_nat (n - 55))
  else None.

Definition digitBelow (base : Z) (c : ascii) : option Z :=
  match decimalDigit c with
  | Some d => if (d <? base)%Z then Some d else None
  | None => None
  end.

(** The longest prefix of digits: its value, its length and what follows. *)
Fixpoint readDigits (digit : ascii → option Z) (base : Z)
    (cs : list ascii) (acc : Z) (n : nat) : Z * nat * list ascii :=
  match cs with
  | c :: cs' =>
      match digit c with
      | Some d => readDigits digit base cs' (acc * base + d)%Z (S n)
      | None => (acc, n, cs)
      end
  | [] => (acc, n, [])
  end.

(** NonDecimalIntegerLiteral: 0x, 0o and 0b literals, unsigned. *)
Definition parseNonDecimal (cs : list ascii) : option Z :=
  match cs with
  | "0"%char :: k :: ds =>
      let lit (digit : ascii → option Z) (base : Z) :=
        match readDigits digit base ds 0 0 with
        | (v, S _, []) => Some v
        | _ => None
        end in
      if (k =? "x")%char || (k =? "X")%char then lit hexDigit 16%Z
      else if (k =? "o")%char || (k =? "O")%char then lit (digitBelow 8) 8%Z
      else if (k =? "b")%char || (k =? "B")%char then lit (digitBelow 2) 2%Z
      else None
  | _ => None
  end.

(** ExponentPart, or nothing: the exponent. *)
Definition parseExponent (cs : list ascii) : option Z :=
  match cs with
  | [] => Some 0%Z
  | c :: cs' =>
      if (c =? "e")%char || (c =? "E")%char then
        let '(sgn, ds) :=
          match cs' with
          | "+"%char :: r => (1%Z, r)
          | "-"%char :: r => ((-1)%Z, r)
          | _ => (1%Z, cs')
          end in
        match readDigits decimalDigit 10 ds 0 0 with
        | (x, S _, []) => Some (sgn * x)%Z
        | _ => None
        end
      else None
  end.

(** StrUnsignedDecimalLiteral without [Infinity]: the exact value. *)
Definition parseUnsignedDecimal (cs : list ascii) : option Q :=
  let '(i, ni, r1) := readDigits decimalDigit 10 cs 0 0 in
  let '(f, nf, r2) :=
    match r1 with
    | "."%char :: r => readDigits decimalDigit 10 r 0 0
    | _ => (0%Z, 0, r1)
    end in
  if (ni + nf =? 0) then None
  else
    match parseExponent r2 with
    | Some e =>
        Some (inject_Z (i * 10 ^ Z.of_nat nf + f)
              * Qpower 10 (e - Z.of_nat nf))%Q
    | None => None
    end.

Definition infinityLiteral : list ascii := list_ascii_of_string "Infinity".

Definition negate (n : JSNumber) : JSNumber :=
  match n with
  | NaN => NaN
  | PosInfinity => NegInfinity
  | NegInfinity => PosInfinity
  | Finite q => Finite (Qred (- q))
  end.

Definition parseUnsigned (cs : list ascii) : JSNumber :=
  if bool_decide (cs = infinityLiteral) then PosInfinity
  else
    match parseUnsignedDecimal cs with
    | Some q => roundDouble q
    | None => NaN
    end.

(** [Number(s)] for a string [s] (StringToNumber). *)
Definition Number (s : string) : JSNumber :=
  match trim (list_ascii_of_string s) with
  | [] => Finite 0
  | (c :: r) as cs =>
      match parseNonDecimal cs with
      | Some n => roundDouble (inject_Z n)
      | None =>
          if (c =? "+")%char then parseUnsigned r
          else if (c =? "-")%char then negate (parseUnsigned r)
          else parseUnsigned cs
      end
  end.

(** [Number.isInteger]. *)
Definition isInteger (n : JSNumber) : bool :=
  match n with
  | Finite q => Qeq_bool q (inject_Z (Qfloor q))
  | _ => false
  end.

(** Truthiness of an optional string: [undefined] and [''] are falsy. *)
Definition truthy (o : option string) : bool :=
  match o with
  | Some s => negb (String.eqb s "")
  | None => false
  end.

(** [x || 0] for a nullable number: [null], [NaN] and [0] give [0]. *)
Definition orZero (o : option JSNumber) : JSNumber :=
  match o with
  | Some (Finite v) => if Qeq_bool v 0 then Finite 0 else Finite v
  | Some NaN => Finite 0
  | Some other => other
  | None => Finite 0
  end.

(** [x / n] for a number [x] and an integer [n] above 0. *)
Definition quotient (x : JSNumber) (n : Z) : JSNumber :=
  match x with
  | Finite q => roundDouble (q / inject_Z n)
  | other => other
  end.

(** [Math.ceil(a / b)] for integers [a], [b] with [b] not zero. *)
Definition ceilDiv (a b : Z) : Z := Qceiling (inject_Z a / inject_Z b).

End JS.


(** ** Strings: ASCII case folding and substring search *)

Definition toLowerAscii (c : ascii) : ascii :=
  let n := nat_of_ascii c in
  if (65 <=? n) && (n <=? 90) then ascii_of_nat (n + 32) else c.

Fixpoint toLowerCase (s : string) : string :=
  match s with
  | EmptyString => EmptyString
  | String c s' => String (toLowerAscii c) (toLowerCase s')
  end.

Fixpoint startsWith (s p : string) {struct p} : bool :=
  match p, s with
  | EmptyString, _ => true
  | String c p', String d s' => (c =? d)%char && startsWith s' p'
  | String _ _, EmptyString => false
  end.

(** [s.includes(p)]: [p] occurs in [s] at some offset. *)
Fixpoint includes (s p : string) : bool :=
  startsWith s p ||
  match s with
  | EmptyString => false
  | String _ s' => includes s' p
  end.

(** ** The data model ([schema.prisma]) *)

Inductive LeadStage : Type :=
| NEW | CONTACTED | QUALIFIED | PROPOSAL | NEGOTIATION | CLOSED_WON | CLOSED_LOST.

Inductive LeadStatus : Type :=
| ACTIVE | INACTIVE | CONVERTED | REJECTED.

#[export] Instance LeadStage_eq_dec : EqDecision LeadStage.
Proof. solve_decision. Defined.
#[export] Instance LeadStatus_eq_dec : EqDecision LeadStatus.
Proof. solve_decision. Defined.

(** The enum values as the strings the store and JSON carry. *)
Definition stageName (s : LeadStage) : string :=
  match s with
  | NEW => "NEW" | CONTACTED => "CONTACTED" | QUALIFIED => "QUALIFIED"
  | PROPOSAL => "PROPOSAL" | NEGOTIATION => "NEGOTIATION"
  | CLOSED_WON => "CLOSED_WON" | CLOSED_LOST => "CLOSED_LOST"
  end.

Definition statusName (s : LeadStatus) : string :=
  match s with
  | ACTIVE => "ACTIVE" | INACTIVE => "INACTIVE"
  | CONVERTED => "CONVERTED" | REJECTED => "REJECTED"
  end.

Definition LeadStageEnum : list LeadStage :=
  [NEW; CONTACTED; QUALIFIED; PROPOSAL; NEGOTIATION; CLOSED_WON; CLOSED_LOST].

Definition LeadStatusEnum : list LeadStatus :=
  [ACTIVE; INACTIVE; CONVERTED; REJECTED].

(** A MongoDB ObjectId: 12 bytes, here the number they spell. *)
Definition ObjectId : Type := N.

Module Lead.
Record t : Type := mk {
  id : ObjectId;
  firstName : string;
  lastName : string;
  email : string;
  phone : string;
  company : string;
  position : string;
  stage : LeadStage;
  status : LeadStatus;
  source : string;
  value : Q;
  notes : option string;
  assignedTo : option string;
  country : string;
  city : string;
  createdAt : Z;
  updatedAt : Z
}.
End Lead.

(** ** The record store (Prisma client, [prisma.lead]) *)

Inductive QueryMode : Type := default | insensitive.

(** [{ contains: s, mode: m }] *)
Record StringFilter : Type := { contains : string; mode : QueryMode }.

Definition evalStringFilter (f : StringFilter) (v : string) : bool :=
  match mode f with
  | insensitive => includes (toLowerCase v) (toLowerCase (contains f))
  | default => includes v (contains f)
  end.

Module LeadWhereInput.
(** The one-key objects [{ field: filter }] of an [OR] array. *)
Inductive scalar : Type :=
| firstName (f : StringFilter)
| lastName (f : StringFilter)
| email (f : StringFilter)
| company (f : StringFilter)
| phone (f : StringFilter).

Record t : Type := mk {
  OR : option (list scalar);
  stage : option LeadStage;
  status : option LeadStatus;
  source : option string;
  country : option string
}.

(** [{}] *)
Definition empty : t := mk None None None None None.

Definition evalScalar (c : scalar) (r : Lead.t) : bool :=
  match c with
  | firstName f => evalStringFilter f (Lead.firstName r)
  | lastName f => evalStringFilter f (Lead.lastName r)
  | email f => evalStringFilter f (Lead.email r)
  | company f => evalStringFilter f (Lead.company r)
  | phone f => evalStringFilter f (Lead.phone r)
  end.

(** A document matches when every key that is set holds; an [OR] array
    holds when one of its members does. *)
Definition eval (w : t) (r : Lead.t) : bool :=
  match OR w with Some cs => existsb (λ c, evalScalar c r) cs | None => true end
  && match stage w with Some s => bool_decide (Lead.stage r = s) | None => true end
  && match status w with Some s => bool_decide (Lead.status r = s) | None => true end
  && match source w with Some s => String.eqb (Lead.source r) s | None => true end
  && match country w with Some s => String.eqb (Lead.country r) s | None => true end.
End LeadWhereInput.

Inductive SortOrder : Type := asc | desc.

(** The value of a scalar field of a document, as the store compares it. *)
Inductive Scalar : Type :=
| SNull
| SObjectId (n : N)
| SString (s : string)
| SNumber (q : Q)
| SDate (t : Z).

Definition ofOption (o : option string) : Scalar :=
  match o with Some s => SString s | None => SNull end.

(** The scalar fields of [Lead] by name. *)
Definition leadFields : list (string * (Lead.t → Scalar)) :=
  [ ("id", λ r, SObjectId (Lead.id r));
    ("firstName", λ r, SString (Lead.firstName r));
    ("lastName", λ r, SString (Lead.lastName r));
    ("email", λ r, SString (Lead.email r));
    ("phone", λ r, SString (Lead.phone r));
    ("company", λ r, SString (Lead.company r));
    ("position", λ r, SString (Lead.position r));
    ("stage", λ r, SString (stageName (Lead.stage r)));
    ("status", λ r, SString (statusName (Lead.status r)));
    ("source", λ r, SString (Lead.source r));
    ("value", λ r, SNumber (Lead.value r));
    ("notes", λ r, ofOption (Lead.notes r));
    ("assignedTo", λ r, ofOption (Lead.assignedTo r));
    ("country", λ r, SString (Lead.country r));
    ("city", λ r, SString (Lead.city r));
    ("createdAt", λ r, SDate (Lead.createdAt r));
    ("updatedAt", λ r, SDate (Lead.updatedAt r)) ].

Fixpoint assoc {A : Type} (k : string) (l : list (string * A)) : option A :=
  match l with
  | (k', a) :: l' => if String.eqb k k' then Some a else assoc k l'
  | [] => None
  end.

(** Ascending order of field values; null sorts first. *)
Definition scalar_leb (a b : Scalar) : bool :=
  match a, b with
  | SNull, _ => true
  | _, SNull => false
  | SObjectId x, SObjectId y => (x <=? y)%N
  | SString x, SString y => String.leb x y
  | SNumber x, SNumber y => Qle_bool x y
  | SDate x, SDate y => (x <=? y)%Z
  | _, _ => true
  end.

Definition orderedBy (key : Lead.t → Scalar) (o : SortOrder) (a b : Lead.t) : Prop :=
  match o with
  | asc => scalar_leb (key a) (key b)
  | desc => scalar_leb (key b) (key a)
  end.

#[export] Instance orderedBy_dec key o a b : Decision (orderedBy key o a b).
Proof. destruct o; simpl; apply _. Defined.

(** One group of [groupBy]: the key and [_count]. *)
Record Group (K : Type) : Type := { by_ : K; _count : nat }.
Arguments by_ {K} _.
Arguments _count {K} _.
Arguments Build_Group {K} _ _.

Section grouping.
Context {K : Type} `{EqDecision K}.

(** Count one more document under key [k]; a new key goes last. *)
Fixpoint bump (k : K) (gs : list (Group K)) : list (Group K) :=
  match gs with
  | [] => [Build_Group k 1]
  | g :: gs' =>
      if decide (by_ g = k) then Build_Group k (S (_count g)) :: gs'
      else g :: bump k gs'
  end.

(** The groups of a collection, in the order their keys first occur. *)
Definition groups (key : Lead.t → K) (l : list Lead.t) : list (Group K) :=
  foldl (λ gs r, bump (key r) gs) [] l.

Definition countDesc (a b : Group K) : Prop := _count b ≤ _count a.

#[export] Instance countDesc_dec a b : Decision (countDesc a b).
Proof. unfold countDesc. apply _. Defined.
End grouping.

(** The collection of leads, in the store's natural order. *)
Definition Store : Type := list Lead.t.

Inductive PrismaError : Type :=
| PrismaClientValidationError
| MalformedObjectID.

Inductive Outcome (A : Type) : Type :=
| resolved (a : A)
| rejected (e : PrismaError).
Arguments resolved {A} _.
Arguments rejected {A} _.

(** An asynchronous computation against the store: it resolves or rejects,
    and leaves a store behind. *)
Definition Prisma (A : Type) : Type := Store → Outcome A * Store.

#[export] Instance Prisma_ret : MRet Prisma := λ A a s, (resolved a, s).

#[export] Instance Prisma_bind : MBind Prisma := λ A B k m s,
  match m s with
  | (resolved a, s') => k a s'
  | (rejected e, s') => (rejected e, s')
  end.

(** [try { m } catch (error) { h error }] *)
Definition tryCatch {A : Type} (m : Prisma A) (h : PrismaError → Prisma A) : Prisma A :=
  λ s, match m s with
       | (resolved a, s') => (resolved a, s')
       | (rejected e, s') => h e s'
       end.

(** A 24-digit hexadecimal string as an ObjectId. *)
Definition parseObjectId (s : string) : option ObjectId :=
  match JS.readDigits JS.hexDigit 16 (list_ascii_of_string s) 0 0 with
  | (v, 24, []) => Some (Z.to_N v)
  | _ => None
  end.

Definition sumValues (l : list Lead.t) : Q :=
  foldr (λ r acc, (Lead.value r + acc)%Q) 0%Q l.

Module prisma_lead.

Definition matching (where_ : option LeadWhereInput.t) (s : Store) : list Lead.t :=
  match where_ with
  | Some w => List.filter (LeadWhereInput.eval w) s
  | None => s
  end.

(** [prisma.lead.count({ where })] *)
Definition count (where_ : option LeadWhereInput.t) : Prisma nat :=
  λ s, (resolved (length (matching where_ s)), s).

(** [prisma.lead.findMany({ where, skip, take, orderBy: { [field]: order } })],
    called with [0 <= skip] and [0 <= take]; a field the model does not
    have is refused before the store is asked. *)
Definition findMany (where_ : LeadWhereInput.t) (skip take : Z)
    (orderBy : string * SortOrder) : Prisma (list Lead.t) :=
  λ s, match assoc orderBy.1 leadFields with
       | Some key =>
           (resolved
              (firstn (Z.to_nat take)
                 (skipn (Z.to_nat skip)
                    (merge_sort (orderedBy key orderBy.2) (matching (Some where_) s)))),
            s)
       | None => (rejected PrismaClientValidationError, s)
       end.

(** [prisma.lead.findUnique({ where: { id } })] *)
Definition findUnique (id : string) : Prisma (option Lead.t) :=
  λ s, match parseObjectId id with
       | Some oid => (resolved (List.find (λ r, (Lead.id r =? oid)%N) s), s)
       | None => (rejected MalformedObjectID, s)
       end.

(** [prisma.lead.aggregate({ _sum: { value: true }, _avg: { value: true } })]:
    both are null over an empty collection, and doubles otherwise. The
    store adds with a compensated sum, taken here as the double nearest
    the exact sum, and divides that double by the count. *)
Definition aggregate : Prisma (option JS.JSNumber * option JS.JSNumber) :=
  λ s, match s with
       | [] => (resolved (None, None), s)
       | _ :: _ =>
           let sum := JS.roundDouble (sumValues s) in
           (resolved (Some sum,
                      Some (JS.quotient sum (Z.of_nat (length s)))), s)
       end.

(** [prisma.lead.groupBy({ by: [field], _count: true, orderBy, take })];
    [orderByCount] stands for [orderBy: { _count: { field: 'desc' } }]. *)
Definition groupBy {K : Type} `{EqDecision K} (by_field : Lead.t → K)
    (orderByCount : option SortOrder) (take : option nat) : Prisma (list (Group K)) :=
  λ s,
    let gs := groups by_field s in
    let gs := match orderByCount with
              | Some desc => merge_sort countDesc gs
              | Some asc => merge_sort (flip countDesc) gs
              | None => gs
              end in
    let gs := match take with Some n => firstn n gs | None => gs end in
    (resolved gs, s).

(** [prisma.lead.deleteMany()] and [prisma.lead.createMany({ data })], the
    writes of the seeding script. *)
Definition deleteMany : Prisma nat := λ s, (resolved (length s), []).

Definition createMany (data : list Lead.t) : Prisma nat :=
  λ s, (resolved (length data), s ++ data).

End prisma_lead.

(** ** Request validation ([validations/lead.validation], zod) *)

(** A value of [req.query]: a string, or an array or object for repeated
    and bracketed keys. *)
Inductive RawValue : Type :=
| RString (s : string)
| RArray (l : list string)
| RObject.

Inductive ZodIssueCode : Type :=
| invalid_type
| invalid_enum_value
| invalid_string
| too_small
| too_big.

Record ZodIssue : Type := { path : string; code : ZodIssueCode }.

Module z.

Definition Parsed (A : Type) : Type := (list ZodIssueCode + A)%type.

(** [z.string()] *)
Definition string (x : RawValue) : Parsed string :=
  match x with
  | RString s => inr s
  | _ => inl [invalid_type]
  end.

(** [z.enum([...])], the values given with their spelling. *)
Definition enum {A : Type} (values : list A) (name : A → String.string)
    (x : RawValue) : Parsed A :=
  match x with
  | RString s =>
      match List.find (λ a, String.eqb (name a) s) values with
      | Some a => inr a
      | None => inl [invalid_enum_value]
      end
  | _ => inl [invalid_type]
  end.

(** [inner.optional()]: a missing key is [undefined]. *)
Definition optional {A : Type} (inner : RawValue → Parsed A)
    (x : option RawValue) : Parsed (option A) :=
  match x with
  | Some v =>
      match inner v with
      | inr a => inr (Some a)
      | inl issues => inl issues
      end
  | None => inr None
  end.

(** [inner.optional().default(d)]: a missing key is parsed as [d]. *)
Definition default {A : Type} (d : String.string) (inner : RawValue → Parsed A)
    (x : option RawValue) : Parsed A :=
  match x with
  | Some v => inner v
  | None => inner (RString d)
  end.

Definition positive (n : JS.JSNumber) : bool :=
  match n with
  | JS.Finite q => negb (Qle_bool q 0)
  | JS.PosInfinity => true
  | _ => false
  end.

Definition above (m : Q) (n : JS.JSNumber) : bool :=
  match n with
  | JS.Finite q => negb (Qle_bool q m)
  | JS.PosInfinity => true
  | _ => false
  end.

(** [z.number().int().positive()], and [.max(m)] when [max] is given:
    NaN is no number; the checks that fail are all reported. *)
Definition number_int_positive (max : option Q) (n : JS.JSNumber) : list ZodIssueCode :=
  match n with
  | JS.NaN => [invalid_type]
  | _ =>
      (if JS.isInteger n then [] else [invalid_type])
      ++ (if positive n then [] else [too_small])
      ++ match max with
         | Some m => if above m n then [too_big] else []
         | None => []
         end
  end.

Definition toInteger (n : JS.JSNumber) : Z :=
  match n with
  | JS.Finite q => Qfloor q
  | _ => 0%Z
  end.

(** [z.string().transform(Number).pipe(z.number().int().positive()...)] *)
Definition string_transform_Number_pipe (max : option Q) (x : RawValue) : Parsed Z :=
  match string x with
  | inr s =>
      let n := JS.Number s in
      match number_int_positive max n with
      | [] => inr (toInteger n)
      | issues => inl issues
      end
  | inl issues => inl issues
  end.

(** The issues of one key of an object schema. *)
Definition issuesAt {A : Type} (key : String.string) (r : Parsed A) : list ZodIssue :=
  match r with
  | inl codes => (λ c, {| path := key; code := c |}) <$> codes
  | inr _ => []
  end.

End z.

Module LeadQueryInput.
Record t : Type := mk {
  search : option string;
  stage : option LeadStage;
  status : option LeadStatus;
  source : option string;
  country : option string;
  sortBy : string;
  sortOrder : SortOrder;
  page : Z;
  limit : Z
}.
End LeadQueryInput.

Definition sortOrderName (o : SortOrder) : string :=
  match o with asc => "asc" | desc => "desc" end.

Definition pageSchema : option RawValue → z.Parsed Z :=
  z.default "1" (z.string_transform_Number_pipe None).

Definition limitSchema : option RawValue → z.Parsed Z :=
  z.default "10" (z.string_transform_Number_pipe (Some 100%Q)).

Definition leadQuerySchema (query : gmap string RawValue)
    : list ZodIssue + LeadQueryInput.t :=
  let search := z.optional z.string (query !! "search") in
  let stage := z.optional (z.enum LeadStageEnum stageName) (query !! "stage") in
  let status := z.optional (z.enum LeadStatusEnum statusName) (query !! "status") in
  let source := z.optional z.string (query !! "source") in
  let country := z.optional z.string (query !! "country") in
  let sortBy := z.default "createdAt" z.string (query !! "sortBy") in
  let sortOrder := z.default "desc" (z.enum [asc; desc] sortOrderName) (query !! "sortOrder") in
  let page := pageSchema (query !! "page") in
  let limit := limitSchema (query !! "limit") in
  match search, stage, status, source, country, sortBy, sortOrder, page, limit with
  | inr search', inr stage', inr status', inr source', inr country',
    inr sortBy', inr sortOrder', inr page', inr limit' =>
      inr (LeadQueryInput.mk search' stage' status' source' country'
             sortBy' sortOrder' page' limit')
  | _, _, _, _, _, _, _, _, _ =>
      inl (z.issuesAt "search" search ++ z.issuesAt "stage" stage
           ++ z.issuesAt "status" status ++ z.issuesAt "source" source
           ++ z.issuesAt "country" country ++ z.issuesAt "sortBy" sortBy
           ++ z.issuesAt "sortOrder" sortOrder ++ z.issuesAt "page" page
           ++ z.issuesAt "limit" limit)
  end.

(** The class [[a-f\d]] under the [i] flag. *)
Definition hexClass (c : ascii) : bool :=
  let n := nat_of_ascii (toLowerAscii c) in
  ((97 <=? n) && (n <=? 102)) || ((48 <=? n) && (n <=? 57)).

(** [class{n}] from the start of [s]: what follows the [n] characters. *)
Fixpoint repeatClass (class : ascii → bool) (n : nat) (s : string) : option string :=
  match n with
  | 0 => Some s
  | S n' =>
      match s with
      | String c s' => if class c then repeatClass class n' s' else None
      | EmptyString => None
      end
  end.

(** [/^[a-f\d]{24}$/i.test(s)] *)
Definition objectIdRegex (s : string) : bool :=
  match repeatClass hexClass 24 s with
  | Some EmptyString => true
  | _ => false
  end.

Definition leadIdSchema (id : string) : list ZodIssue + string :=
  if objectIdRegex id then inr id
  else inl [{| path := "id"; code := invalid_string |}].

(** ** The handlers ([controllers/lead.controller]) *)

Module Pagination.
Record t : Type := mk { total : nat; page : Z; limit : Z; totalPages : Z }.
End Pagination.

Module PaginatedResponse.
Record t : Type := mk { data : list Lead.t; pagination : Pagination.t }.
End PaginatedResponse.

Module SourceCount.
Record t : Type := mk { source : string; count : nat }.
End SourceCount.

Module AnalyticsData.
Record t : Type := mk {
  totalLeads : nat;
  convertedLeads : nat;
  activeLeads : nat;
  totalValue : JS.JSNumber;
  averageValue : JS.JSNumber;
  leadsByStage : gmap string nat;
  leadsByStatus : gmap string nat;
  leadsBySource : list SourceCount.t
}.
End AnalyticsData.

(** What a request is answered with: [res.status(c).json(body)], the error
    body [{ error }], or the validator's list of field errors (400). *)
Inductive Response (A : Type) : Type :=
| json (statusCode : nat) (body : A)
| jsonError (statusCode : nat) (error : string)
| validationError (errors : list ZodIssue).
Arguments json {A} _ _.
Arguments jsonError {A} _ _.
Arguments validationError {A} _.

Definition insensitiveContains (search : string) : StringFilter :=
  {| contains := search; mode := insensitive |}.

(** The filter of [getLeads]: [where] starts empty and gets a key for each
    truthy parameter. *)
Definition buildWhere (query : LeadQueryInput.t) : LeadWhereInput.t :=
  let where_ := LeadWhereInput.empty in
  let where_ :=
    match LeadQueryInput.search query with
    | Some search =>
        if JS.truthy (Some search) then
          LeadWhereInput.mk
            (Some [ LeadWhereInput.firstName (insensitiveContains search);
                    LeadWhereInput.lastName (insensitiveContains search);
                    LeadWhereInput.email (insensitiveContains search);
                    LeadWhereInput.company (insensitiveContains search);
                    LeadWhereInput.phone (insensitiveContains search) ])
            (LeadWhereInput.stage where_) (LeadWhereInput.status where_)
            (LeadWhereInput.source where_) (LeadWhereInput.country where_)
        else where_
    | None => where_
    end in
  let where_ :=
    match LeadQueryInput.stage query with
    | Some stage =>
        LeadWhereInput.mk (LeadWhereInput.OR where_) (Some stage)
          (LeadWhereInput.status where_) (LeadWhereInput.source where_)
          (LeadWhereInput.country where_)
    | None => where_
    end in
  let where_ :=
    match LeadQueryInput.status query with
    | Some status =>
        LeadWhereInput.mk (LeadWhereInput.OR where_) (LeadWhereInput.stage where_)
          (Some status) (LeadWhereInput.source where_)
          (LeadWhereInput.country where_)
    | None => where_
    end in
  let where_ :=
    if JS.truthy (LeadQueryInput.source query) then
      LeadWhereInput.mk (LeadWhereInput.OR where_) (LeadWhereInput.stage where_)
        (LeadWhereInput.status where_) (LeadQueryInput.source query)
        (LeadWhereInput.country where_)
    else where_ in
  if JS.truthy (LeadQueryInput.country query) then
    LeadWhereInput.mk (LeadWhereInput.OR where_) (LeadWhereInput.stage where_)
      (LeadWhereInput.status where_) (LeadWhereInput.source where_)
      (LeadQueryInput.country query)
  else where_.

Definition internalServerError {A : Type} : Response A :=
  jsonError 500 "Internal server error".

Definition getLeads (query : LeadQueryInput.t) : Prisma (Response PaginatedResponse.t) :=
  tryCatch
    (let page := LeadQueryInput.page query in
     let limit := LeadQueryInput.limit query in
     let skip := ((page - 1) * limit)%Z in
     let where_ := buildWhere query in
     total ← prisma_lead.count (Some where_);
     leads ← prisma_lead.findMany where_ skip limit
               (LeadQueryInput.sortBy query, LeadQueryInput.sortOrder query);
     mret (json 200
             (PaginatedResponse.mk leads
                (Pagination.mk total page limit
                   (JS.ceilDiv (Z.of_nat total) limit)))))
    (λ error, mret internalServerError).

Definition getLeadById (id : string) : Prisma (Response Lead.t) :=
  tryCatch
    (lead ← prisma_lead.findUnique id;
     match lead with
     | None => mret (jsonError 404 "Lead not found")
     | Some lead => mret (json 200 lead)
     end)
    (λ error, mret internalServerError).

(** [raw.reduce((acc, item) => { acc[item.key] = item._count; return acc }, {})] *)
Definition reduceCounts {K : Type} (name : K → string) (raw : list (Group K))
    : gmap string nat :=
  foldl (λ acc item, <[name (by_ item) := _count item]> acc) ∅ raw.

Definition whereStatus (s : LeadStatus) : LeadWhereInput.t :=
  LeadWhereInput.mk None None (Some s) None None.

Definition getAnalytics : Prisma (Response AnalyticsData.t) :=
  tryCatch
    (totalLeads ← prisma_lead.count None;
     convertedLeads ← prisma_lead.count (Some (whereStatus CONVERTED));
     activeLeads ← prisma_lead.count (Some (whereStatus ACTIVE));
     valueAggregation ← prisma_lead.aggregate;
     leadsByStageRaw ← prisma_lead.groupBy Lead.stage None None;
     let leadsByStage := reduceCounts stageName leadsByStageRaw in
     leadsByStatusRaw ← prisma_lead.groupBy Lead.status None None;
     let leadsByStatus := reduceCounts statusName leadsByStatusRaw in
     leadsBySourceRaw ← prisma_lead.groupBy Lead.source (Some desc) (Some 10);
     let leadsBySource :=
       (λ item, SourceCount.mk (by_ item) (_count item)) <$> leadsBySourceRaw in
     mret (json 200
             (AnalyticsData.mk totalLeads convertedLeads activeLeads
                (JS.orZero valueAggregation.1) (JS.orZero valueAggregation.2)
                leadsByStage leadsByStatus leadsBySource)))
    (λ error, mret internalServerError).

(** ** The routes ([routes/lead.routes]) *)

(** Modelled from the spec: [validateQuery] and [validateParams] of
    [middleware/validation.middleware] are not in the sources at hand. The
    validator either hands the typed, defaulted object to the handler or
    answers 400 with the fields that failed; it does not touch the store. *)
Definition validate {I P A : Type} (schema : I → list ZodIssue + P)
    (handler : P → Prisma (Response A)) (input : I) : Prisma (Response A) :=
  match schema input with
  | inr parsed => handler parsed
  | inl errors => mret (validationError errors)
  end.

(** [router.get('/', validateQuery(leadQuerySchema), getLeads)] *)
Definition GET_leads : gmap string RawValue → Prisma (Response PaginatedResponse.t) :=
  validate leadQuerySchema getLeads.

(** [router.get('/analytics', getAnalytics)] *)
Definition GET_leads_analytics : Prisma (Response AnalyticsData.t) := getAnalytics.

(** [router.get('/:id', validateParams(leadIdSchema), getLeadById)] *)
Definition GET_leads_id : string → Prisma (Response Lead.t) :=
  validate leadIdSchema getLeadById.

(** ** A small collection to run the handlers on *)

Definition lead1 : Lead.t :=
  Lead.mk 1%N "John" "Smith" "john.smith1@example.com" "+1-200-100-1000"
    "TechCorp" "CEO" NEW ACTIVE "Website" 5000 None (Some "Demo User")
    "Canada" "Toronto" 1700000000000 1700000000000.

Definition lead2 : Lead.t :=
  Lead.mk 2%N "Emma" "Johnson" "emma.johnson2@example.com" "+1-300-200-2000"
    "DataSystems" "CTO" CLOSED_WON CONVERTED "Referral" 7000 None None
    "France" "Paris" 1700000001000 1700000001000.

Definition lead3 : Lead.t :=
  Lead.mk 3%N "Michael" "Brown" "michael.brown3@example.com" "+1-400-300-3000"
    "CloudNine" "CFO" CLOSED_LOST REJECTED "Website" 9000 (Some "Lost") None
    "Japan" "Tokyo" 1700000002000 1700000002000.

Definition seeded : Store := [lead1; lead2; lead3].

Definition lead4 : Lead.t :=
  Lead.mk 4%N "Sophia" "Garcia" "sophia.garcia4@example.com" "+1-500-400-4000"
    "Innovate Inc" "VP of Sales" NEW ACTIVE "Partner" 5000 None None
    "Spain" "Madrid" 1700000003000 1700000003000.

(** Values 5000, 7000 and 5000: the mean, 17000/3, is no double. *)
Definition thirds : Store := [lead1; lead2; lead4].

Definition query1 (kvs : list (string * string)) : gmap string RawValue :=
  list_to_map (prod_map id RString <$> kvs).

(** ** What the handlers compute *)

Definition sortedMatching (query : LeadQueryInput.t) (key : Lead.t → Scalar) (s : Store)
    : list Lead.t :=
  merge_sort (orderedBy key (LeadQueryInput.sortOrder query))
    (prisma_lead.matching (Some (buildWhere query)) s).

Definition pageOf (query : LeadQueryInput.t) (key : Lead.t → Scalar) (s : Store)
    : PaginatedResponse.t :=
  let page := LeadQueryInput.page query in
  let limit := LeadQueryInput.limit query in
  let total := length (prisma_lead.matching (Some (buildWhere query)) s) in
  PaginatedResponse.mk
    (firstn (Z.to_nat limit)
       (skipn (Z.to_nat ((page - 1) * limit)) (sortedMatching query key s)))
    (Pagination.mk total page limit (JS.ceilDiv (Z.of_nat total) limit)).

Definition analyticsOf (s : Store) : AnalyticsData.t :=
  let aggregate :=
    match s with
    | [] => (None, None)
    | _ :: _ =>
        let sum := JS.roundDouble (sumValues s) in
        (Some sum, Some (JS.quotient sum (Z.of_nat (length s))))
    end in
  AnalyticsData.mk
    (length s)
    (length (List.filter (LeadWhereInput.eval (whereStatus CONVERTED)) s))
    (length (List.filter (LeadWhereInput.eval (whereStatus ACTIVE)) s))
    (JS.orZero aggregate.1) (JS.orZero aggregate.2)
    (reduceCounts stageName (groups Lead.stage s))
    (reduceCounts statusName (groups Lead.status s))
    ((λ item, SourceCount.mk (by_ item) (_count item))
       <$> firstn 10 (merge_sort countDesc (groups Lead.source s))).

(** ** The filter as the specification words it *)

(** [term] occurs in [s], letter case apart. *)
Definition containsIgnoringCase (s term : string) : Prop :=
  ∃ pre post, toLowerCase s = pre +:+ toLowerCase term +:+ post.

Definition searchDisjunction (term : string) (r : Lead.t) : Prop :=
  containsIgnoringCase (Lead.firstName r) term
  ∨ containsIgnoringCase (Lead.lastName r) term
  ∨ containsIgnoringCase (Lead.email r) term
  ∨ containsIgnoringCase (Lead.company r) term
  ∨ containsIgnoringCase (Lead.phone r) term.

(** Every parameter that is present in the validated query filters. *)
Definition satisfiesPresent (query : LeadQueryInput.t) (r : Lead.t) : Prop :=
  (∀ term, LeadQueryInput.search query = Some term → searchDisjunction term r)
  ∧ (∀ v, LeadQueryInput.stage query = Some v → Lead.stage r = v)
  ∧ (∀ v, LeadQueryInput.status query = Some v → Lead.status r = v)
  ∧ (∀ v, LeadQueryInput.source query = Some v → Lead.source r = v)
  ∧ (∀ v, LeadQueryInput.country query = Some v → Lead.country r = v).

(** As [satisfiesPresent], but [source] and [country] filter only when they
    are not the empty string. *)
Definition satisfiesTruthy (query : LeadQueryInput.t) (r : Lead.t) : Prop :=
  (∀ term, LeadQueryInput.search query = Some term → searchDisjunction term r)
  ∧ (∀ v, LeadQueryInput.stage query = Some v → Lead.stage r = v)
  ∧ (∀ v, LeadQueryInput.status query = Some v → Lead.status r = v)
  ∧ (∀ v, LeadQueryInput.source query = Some v → v ≠ "" → Lead.source r = v)
  ∧ (∀ v, LeadQueryInput.country query = Some v → v ≠ "" → Lead.country r = v).

Definition withSearch (v : option string) (q : LeadQueryInput.t) : LeadQueryInput.t :=
  LeadQueryInput.mk v (LeadQueryInput.stage q) (LeadQueryInput.status q)
    (LeadQueryInput.source q) (LeadQueryInput.country q) (LeadQueryInput.sortBy q)
    (LeadQueryInput.sortOrder q) (LeadQueryInput.page q) (LeadQueryInput.limit q).

Definition withSource (v : option string) (q : LeadQueryInput.t) : LeadQueryInput.t :=
  LeadQueryInput.mk (LeadQueryInput.search q) (LeadQueryInput.stage q)
    (LeadQueryInput.status q) v (LeadQueryInput.country q) (LeadQueryInput.sortBy q)
    (LeadQueryInput.sortOrder q) (LeadQueryInput.page q) (LeadQueryInput.limit q).

Definition withCountry (v : option string) (q : LeadQueryInput.t) : LeadQueryInput.t :=
  LeadQueryInput.mk (LeadQueryInput.search q) (LeadQueryInput.stage q)
    (LeadQueryInput.status q) (LeadQueryInput.source q) v (LeadQueryInput.sortBy q)
    (LeadQueryInput.sortOrder q) (LeadQueryInput.page q) (LeadQueryInput.limit q).

Definition withWindow (page limit : Z) (q : LeadQueryInput.t) : LeadQueryInput.t :=
  LeadQueryInput.mk (LeadQueryInput.search q) (LeadQueryInput.stage q)
    (LeadQueryInput.status q) (LeadQueryInput.source q) (LeadQueryInput.country q)
    (LeadQueryInput.sortBy q) (LeadQueryInput.sortOrder q) page limit.

(** ** Validation as the specification words it *)

(** [Number(s)] is the integer [k]. *)
Definition coercesTo (s : string) (k : Z) : Prop :=
  ∃ q, JS.Number s = JS.Finite q ∧ (q == inject_Z k)%Q.

(** A hexadecimal digit of either case: 0-9, a-f or A-F. *)
Definition hexadecimal (c : ascii) : Prop :=
  48 ≤ nat_of_ascii c ≤ 57
  ∨ 97 ≤ nat_of_ascii c ≤ 102
  ∨ 65 ≤ nat_of_ascii c ≤ 70.

(** ** Reading the analytics *)

(** The sum of the counts of a mapping from names to counts. *)
Definition sumCounts (m : gmap string nat) : nat :=
  map_fold (λ _ c acc, c + acc) 0 m.

(** The number of leads of a collection filed under key [k]. *)
Definition countOf {K : Type} `{EqDecision K} (key : Lead.t → K) (k : K)
    (l : list Lead.t) : nat :=
  length (List.filter (λ r, bool_decide (key r = k)) l).

(** The count the groups [gs] file under key [k]. *)
Definition countFor {K : Type} `{EqDecision K} (k : K) (gs : list (Group K)) : nat :=
  sum_list (_count <$> filter (λ g, by_ g = k) gs).


(** ** More readings of the answers *)


(** Values a field can hold side by side: of one type, or null. *)
Definition comparable (a b : Scalar) : bool :=
  match a, b with
  | SNull, _ | _, SNull => true
  | SObjectId _, SObjectId _ | SString _, SString _
  | SNumber _, SNumber _ | SDate _, SDate _ => true
  | _, _ => false
  end.

(** Two records tie on a sort key when neither value is before the other;
    no two records of [l] tie. *)
Definition tie (key : Lead.t → Scalar) (a b : Lead.t) : bool :=
  scalar_leb (key a) (key b) && scalar_leb (key b) (key a).

Definition untied (key : Lead.t → Scalar) (l : list Lead.t) : Prop :=
  ForallOrdPairs (λ a b, tie key a b = false) l.

(** The data of pages 1 to [n] of a query, one after the other. *)
Definition pagesUpTo (q : LeadQueryInput.t) (key : Lead.t → Scalar) (s : Store)
    (n : nat) : list Lead.t :=
  mjoin ((λ p, PaginatedResponse.data
                 (pageOf (withWindow (Z.of_nat p) (LeadQueryInput.limit q) q) key s))
         <$> seq 1 n).

(** ** The seeding script ([src/seed.ts])

    [Math.random()] is an argument of the helpers that call it: [random],
    a double from 0 up to, not including, 1. Its product with an integer
    is rounded to a double; integers themselves are exact. *)

(** The doubles below 1 are at most 1 - 2^-53. *)
Definition isRandom (random : Q) : Prop :=
  (0 <= random)%Q ∧ (random <= 1 - (1 # 9007199254740992))%Q.

(** [array[Math.floor(Math.random() * array.length)]]; [None] is
    [undefined]. *)
Definition getRandomItem {T : Type} (random : Q) (array : list T) : option T :=
  match JS.roundDouble (random * inject_Z (Z.of_nat (length array))) with
  | JS.Finite v =>
      if (Qfloor v <? 0)%Z then None else array !! Z.to_nat (Qfloor v)
  | _ => None
  end.

(** [Math.floor(Math.random() * (max - min + 1)) + min] *)
Definition getRandomNumber (random : Q) (min max : Z) : JS.JSNumber :=
  match JS.roundDouble (random * inject_Z (max - min + 1)) with
  | JS.Finite v => JS.Finite (inject_Z (Qfloor v + min))
  | other => other
  end.

(** The largest time value of a date: 8.64e15 ms, 100 000 000 days. *)
Definition maxTime : Z := 8640000000000000.

(** [new Date(t)] for a finite [t] (TimeClip): no valid date when [t] is
    beyond [maxTime] either way, else [t] cut to an integer, towards
    zero. *)
Definition timeClip (t : Q) : option Z :=
  if Qle_bool (Qabs t) (inject_Z maxTime)
  then Some (if Qle_bool 0 t then Qfloor t else Qceiling t)
  else None.

(** [new Date(start.getTime() + Math.random() * (end.getTime() - start.getTime()))],
    valid dates as their time values in milliseconds; [None] is an
    invalid date. The difference, the product and the sum are rounded to
    doubles. *)
Definition getRandomDate (random : Q) (start end_ : Z) : option Z :=
  match JS.roundDouble (inject_Z (end_ - start)) with
  | JS.Finite span =>
      match JS.roundDouble (random * span) with
      | JS.Finite offset =>
          match JS.roundDouble (inject_Z start + offset) with
          | JS.Finite t => timeClip t
          | _ => None
          end
      | _ => None
      end
  | _ => None
  end.

(** The status the seeding loop gives a lead of a stage (the draw is made
    only for the stages that are not closed):
    [stage === CLOSED_WON ? CONVERTED : stage === CLOSED_LOST ? REJECTED :
     getRandomItem([ACTIVE, ACTIVE, ACTIVE, INACTIVE])]. *)
Definition seedStatus (stage : LeadStage) (random : Q) : option LeadStatus :=
  if decide (stage = CLOSED_WON) then Some CONVERTED
  else if decide (stage = CLOSED_LOST) then Some REJECTED
  else getRandomItem random [ACTIVE; ACTIVE; ACTIVE; INACTIVE].

(** The convention of the seeded data: won leads are converted, lost leads
    are rejected, and no other lead is either. *)
Definition seedCorrelated (r : Lead.t) : Prop :=
  (Lead.status r = CONVERTED ↔ Lead.stage r = CLOSED_WON)
  ∧ (Lead.status r = REJECTED ↔ Lead.stage r = CLOSED_LOST).

(** U+00A0, the no-break space. *)
Definition noBreakSpace : string := string_of_list_ascii (JS.utf8 0xA0).

(** ** Decimal numerals *)

(** The character of a decimal digit, and the string of a list of them. *)
Definition digitChar (d : nat) : ascii := ascii_of_nat (48 + d).
Arguments digitChar : simpl never.

Definition numeral (ds : list nat) : string :=
  string_of_list_ascii (digitChar <$> ds).

(** The number a list of decimal digits spells. *)
Definition spell (ds : list nat) : Z :=
  foldl (λ acc d, (acc * 10 + Z.of_nat d)%Z) 0%Z ds.

(** * Properties *)

Example Number_500 : JS.Number "500" = JS.Finite 500.
Proof. vm_compute. reflexivity. Qed.
Example Number_1e2 : JS.Number " 1e2 " = JS.Finite 100.
Proof. vm_compute. reflexivity. Qed.
Example Number_abc : JS.Number "abc" = JS.NaN.
Proof. vm_compute. reflexivity. Qed.
Example Number_hex : JS.Number "0x1F" = JS.Finite 31.
Proof. vm_compute. reflexivity. Qed.
Example Number_round : JS.Number "100.00000000000000001" = JS.Finite 100.
Proof. vm_compute. reflexivity. Qed.
Example Number_tenth : JS.Number "0.1" = JS.Finite (3602879701896397 # 36028797018963968).
Proof. vm_compute. reflexivity. Qed.
Example Number_big : JS.Number "1e400" = JS.PosInfinity.
Proof. vm_compute. reflexivity. Qed.
Example Number_neg : JS.Number "-2.5" = JS.Finite (-5 # 2).
Proof. vm_compute. reflexivity. Qed.
Example Number_empty : JS.Number "" = JS.Finite 0.
Proof. vm_compute. reflexivity. Qed.
Example Number_dot : JS.Number "." = JS.NaN.
Proof. vm_compute. reflexivity. Qed.
Example Number_max : JS.Number "1.7976931348623157e308" = JS.Finite (179769313486231570814527423731704356798070567525844996598917476803157260780028538760589558632766878171540458953514382464234321326889464182768467546703537516986049910576551282076245490090389328944075868508455133942304583236903222948165808559332123348274797826204144723168738177180919299881250404026184124858368 # 1).
Proof. vm_compute. reflexivity. Qed.

Lemma getLeads_run (query : LeadQueryInput.t) (s : Store) :
  getLeads query s =
  (resolved
     match assoc (LeadQueryInput.sortBy query) leadFields with
     | Some key => json 200 (pageOf query key s)
     | None => internalServerError
     end, s).
Proof.
  cbv [getLeads tryCatch mbind Prisma_bind mret Prisma_ret
       prisma_lead.count prisma_lead.findMany fst snd].
  destruct (assoc (LeadQueryInput.sortBy query) leadFields); reflexivity.
Qed.

Lemma getLeadById_run (id : string) (s : Store) :
  getLeadById id s =
  (resolved
     match parseObjectId id with
     | Some oid =>
         match List.find (λ r, (Lead.id r =? oid)%N) s with
         | Some lead => json 200 lead
         | None => jsonError 404 "Lead not found"
         end
     | None => internalServerError
     end, s).
Proof.
  cbv [getLeadById tryCatch mbind Prisma_bind mret Prisma_ret prisma_lead.findUnique].
  destruct (parseObjectId id); [|reflexivity].
  destruct (List.find _ s); reflexivity.
Qed.

Lemma getAnalytics_run (s : Store) :
  getAnalytics s = (resolved (json 200 (analyticsOf s)), s).
Proof.
  cbv [getAnalytics tryCatch mbind Prisma_bind mret Prisma_ret prisma_lead.count
       prisma_lead.aggregate prisma_lead.groupBy prisma_lead.matching analyticsOf].
  destruct s; reflexivity.
Qed.

(** The seeding script's writes do change the collection: the store of the
    model is not constant by construction. *)
Example deleteMany_writes : (prisma_lead.deleteMany seeded).2 = [].
Proof. reflexivity. Qed.

Example createMany_writes :
  (prisma_lead.createMany [lead1] [lead2]).2 = [lead2; lead1].
Proof. reflexivity. Qed.

(** C9. The list query, the single-record lookup and the analytics, each
    behind its validator as routed, and each handler on its own, leave the
    collection of leads as they found it: for every input and every store
    the store after the request is the store before it. *)
Theorem lead_operations_read_only :
  (∀ (query : gmap string RawValue) (s : Store), (GET_leads query s).2 = s)
  ∧ (∀ (id : string) (s : Store), (GET_leads_id id s).2 = s)
  ∧ (∀ s : Store, (GET_leads_analytics s).2 = s)
  ∧ (∀ (query : LeadQueryInput.t) (s : Store), (getLeads query s).2 = s)
  ∧ (∀ (id : string) (s : Store), (getLeadById id s).2 = s).
Proof.
  repeat split.
  - intros query s. unfold GET_leads, validate.
    destruct (leadQuerySchema query) as [errors|parsed]; [reflexivity|].
    by rewrite getLeads_run.
  - intros id s. unfold GET_leads_id, validate.
    destruct (leadIdSchema id) as [errors|parsed]; [reflexivity|].
    by rewrite getLeadById_run.
  - intros s. unfold GET_leads_analytics. by rewrite getAnalytics_run.
  - intros query s. by rewrite getLeads_run.
  - intros id s. by rewrite getLeadById_run.
Qed.

(** ** Substring search *)

Lemma startsWith_spec (s p : string) :
  startsWith s p = true ↔ ∃ post, s = p +:+ post.
Proof.
  revert s. induction p as [|c p IH]; intros s; simpl.
  - split; [intros _; by exists s|done].
  - destruct s as [|d s]; simpl.
    + split; [done|]. intros [post Hpost]. discriminate.
    + rewrite andb_true_iff, IH, Ascii.eqb_eq. split.
      * intros [-> [post ->]]. eauto.
      * intros [post Hpost]. injection Hpost as -> ->. eauto.
Qed.

Lemma includes_spec (s p : string) :
  includes s p = true ↔ ∃ pre post, s = pre +:+ p +:+ post.
Proof.
  induction s as [|c s IH]; simpl.
  - rewrite orb_false_r, startsWith_spec. split.
    + intros [post Hpost]. exists "". eauto.
    + intros (pre & post & Hs). destruct pre; [eauto|discriminate].
  - rewrite orb_true_iff, IH, startsWith_spec. split.
    + intros [[post Hpost]|(pre & post & ->)].
      * exists "". eauto.
      * exists (String c pre). eauto.
    + intros (pre & post & Hs). destruct pre as [|d pre]; simpl in Hs.
      * left. eauto.
      * right. injection Hs as -> ->. eauto.
Qed.

Lemma includes_empty (s : string) : includes s "" = true.
Proof. destruct s; reflexivity. Qed.

Lemma insensitiveContains_spec (term v : string) :
  evalStringFilter (insensitiveContains term) v = true ↔ containsIgnoringCase v term.
Proof. unfold evalStringFilter, containsIgnoringCase. simpl. apply includes_spec. Qed.

(** ** The filter of the list query *)

Lemma buildWhere_eq (q : LeadQueryInput.t) :
  buildWhere q =
  LeadWhereInput.mk
    (match LeadQueryInput.search q with
     | Some term =>
         if JS.truthy (Some term) then
           Some [ LeadWhereInput.firstName (insensitiveContains term);
                  LeadWhereInput.lastName (insensitiveContains term);
                  LeadWhereInput.email (insensitiveContains term);
                  LeadWhereInput.company (insensitiveContains term);
                  LeadWhereInput.phone (insensitiveContains term) ]
         else None
     | None => None
     end)
    (LeadQueryInput.stage q) (LeadQueryInput.status q)
    (if JS.truthy (LeadQueryInput.source q) then LeadQueryInput.source q else None)
    (if JS.truthy (LeadQueryInput.country q) then LeadQueryInput.country q else None).
Proof.
  unfold buildWhere.
  destruct (LeadQueryInput.search q) as [term|];
    [destruct (JS.truthy (Some term))|];
    destruct (LeadQueryInput.stage q), (LeadQueryInput.status q),
      (JS.truthy (LeadQueryInput.source q)), (JS.truthy (LeadQueryInput.country q));
    reflexivity.
Qed.

Lemma truthy_Some (v : string) : JS.truthy (Some v) = true ↔ v ≠ "".
Proof.
  unfold JS.truthy. rewrite negb_true_iff. split.
  - intros H ->. discriminate.
  - intros H. apply String.eqb_neq. exact H.
Qed.

Lemma searchDisjunction_empty (r : Lead.t) : searchDisjunction "" r.
Proof. left. exists "", (toLowerCase (Lead.firstName r)). reflexivity. Qed.

Lemma OR_search_spec (term : string) (r : Lead.t) :
  existsb (λ c, LeadWhereInput.evalScalar c r)
    [ LeadWhereInput.firstName (insensitiveContains term);
      LeadWhereInput.lastName (insensitiveContains term);
      LeadWhereInput.email (insensitiveContains term);
      LeadWhereInput.company (insensitiveContains term);
      LeadWhereInput.phone (insensitiveContains term) ] = true
  ↔ searchDisjunction term r.
Proof.
  unfold searchDisjunction. cbn [existsb LeadWhereInput.evalScalar].
  rewrite !orb_true_iff, !insensitiveContains_spec. intuition discriminate.
Qed.

Lemma optional_equality_spec {A : Type} (o : option A) (P : A → Prop) (b : A → bool) :
  (∀ v, b v = true ↔ P v) →
  match o with Some v => b v | None => true end = true ↔ (∀ v, o = Some v → P v).
Proof.
  intros Hb. destruct o as [v|].
  - rewrite Hb. split; [intros H ? [= <-]; exact H|eauto].
  - split; [intros _ ? [=]|done].
Qed.

Lemma truthy_equality_spec (o : option string) (x : string) :
  match (if JS.truthy o then o else None) with
  | Some v => String.eqb x v
  | None => true
  end = true
  ↔ (∀ v, o = Some v → v ≠ "" → x = v).
Proof.
  destruct o as [v|]; [|simpl; split; [intros _ ? [=]|done]].
  destruct (JS.truthy (Some v)) eqn:Hv.
  - apply truthy_Some in Hv. rewrite String.eqb_eq. split.
    + intros -> ? [= <-] _. reflexivity.
    + eauto.
  - split; [|done]. intros _ ? [= <-] Hne. apply truthy_Some in Hne. congruence.
Qed.

Lemma eval_buildWhere (q : LeadQueryInput.t) (r : Lead.t) :
  LeadWhereInput.eval (buildWhere q) r = true ↔ satisfiesTruthy q r.
Proof.
  rewrite buildWhere_eq. unfold LeadWhereInput.eval, satisfiesTruthy.
  cbn [LeadWhereInput.OR LeadWhereInput.stage LeadWhereInput.status
       LeadWhereInput.source LeadWhereInput.country].
  rewrite !andb_true_iff, !truthy_equality_spec.
  rewrite (optional_equality_spec (LeadQueryInput.stage q) (λ v, Lead.stage r = v))
    by (intros v; apply bool_decide_eq_true).
  rewrite (optional_equality_spec (LeadQueryInput.status q) (λ v, Lead.status r = v))
    by (intros v; apply bool_decide_eq_true).
  assert (match
            match LeadQueryInput.search q with
            | Some term =>
                if JS.truthy (Some term) then
                  Some [ LeadWhereInput.firstName (insensitiveContains term);
                         LeadWhereInput.lastName (insensitiveContains term);
                         LeadWhereInput.email (insensitiveContains term);
                         LeadWhereInput.company (insensitiveContains term);
                         LeadWhereInput.phone (insensitiveContains term) ]
                else None
            | None => None
            end
          with
          | Some cs => existsb (λ c, LeadWhereInput.evalScalar c r) cs
          | None => true
          end = true
          ↔ (∀ term, LeadQueryInput.search q = Some term → searchDisjunction term r))
    as ->; [|tauto].
  destruct (LeadQueryInput.search q) as [term|]; [|split; [intros _ ? [=]|done]].
  destruct (JS.truthy (Some term)) eqn:Hterm.
  - rewrite OR_search_spec. split; [intros H ? [= <-]; exact H|eauto].
  - assert (term = "") as ->.
    { destruct (decide (term = "")) as [|Hne]; [done|].
      apply truthy_Some in Hne. congruence. }
    split; [|done]. intros _ ? [= <-]. apply searchDisjunction_empty.
Qed.

(** C1, as amended. A lead is in the filtered result set of a validated
    list query exactly when it is in the collection, it satisfies the
    search disjunction when [search] is present (the term occurs, letter
    case apart, in one of firstName, lastName, email, company, phone), it
    equals [stage] and [status] when they are present, and it equals
    [source] and [country] when they are present and not the empty
    string. *)
Theorem filter_composition (query : LeadQueryInput.t) (s : Store) (r : Lead.t) :
  In r (prisma_lead.matching (Some (buildWhere query)) s)
  ↔ In r s ∧ satisfiesTruthy query r.
Proof.
  unfold prisma_lead.matching. rewrite filter_In, eval_buildWhere. reflexivity.
Qed.

(** C1, as stated, fails: the query [?source=] validates with [source]
    present and empty; the lead with source "Website" is in its result
    set, though it does not equal the present [source]. *)
Lemma filter_composition_present_empty_source :
  ∃ query : LeadQueryInput.t,
    leadQuerySchema (query1 [("source", "")]) = inr query
    ∧ In lead1 (prisma_lead.matching (Some (buildWhere query)) seeded)
    ∧ ¬ satisfiesPresent query lead1.
Proof.
  eexists. split; [vm_compute; reflexivity|]. split.
  - vm_compute. left. reflexivity.
  - intros (_ & _ & _ & Hsource & _).
    specialize (Hsource "" eq_refl). discriminate.
Qed.

(** ** Empty parameters *)

(** C10. An empty [search], [source] or [country] in the validated query
    adds no term to the filter: the filter, the result set and the whole
    answer are those of the same query without the parameter. *)
Theorem empty_parameter_is_absent (query : LeadQueryInput.t) (s : Store) :
  (buildWhere (withSearch (Some "") query) = buildWhere (withSearch None query)
   ∧ buildWhere (withSource (Some "") query) = buildWhere (withSource None query)
   ∧ buildWhere (withCountry (Some "") query) = buildWhere (withCountry None query))
  ∧ (prisma_lead.matching (Some (buildWhere (withSearch (Some "") query))) s
     = prisma_lead.matching (Some (buildWhere (withSearch None query))) s
     ∧ prisma_lead.matching (Some (buildWhere (withSource (Some "") query))) s
       = prisma_lead.matching (Some (buildWhere (withSource None query))) s
     ∧ prisma_lead.matching (Some (buildWhere (withCountry (Some "") query))) s
       = prisma_lead.matching (Some (buildWhere (withCountry None query))) s)
  ∧ (getLeads (withSearch (Some "") query) s = getLeads (withSearch None query) s
     ∧ getLeads (withSource (Some "") query) s = getLeads (withSource None query) s
     ∧ getLeads (withCountry (Some "") query) s = getLeads (withCountry None query) s).
Proof.
  assert (buildWhere (withSearch (Some "") query) = buildWhere (withSearch None query)
          ∧ buildWhere (withSource (Some "") query) = buildWhere (withSource None query)
          ∧ buildWhere (withCountry (Some "") query) = buildWhere (withCountry None query))
    as (Hsearch & Hsource & Hcountry).
  { rewrite !buildWhere_eq. repeat split; reflexivity. }
  split; [done|]. split.
  - rewrite Hsearch, Hsource, Hcountry. done.
  - rewrite !getLeads_run. unfold pageOf, sortedMatching.
    rewrite Hsearch, Hsource, Hcountry. done.
Qed.

(** ** Validation of [page] and [limit] *)

Lemma isInteger_spec (q : Q) :
  JS.isInteger (JS.Finite q) = true ↔ ∃ k, (q == inject_Z k)%Q.
Proof.
  simpl. rewrite Qeq_bool_iff. split.
  - intros H. exists (Qfloor q). exact H.
  - intros [k Hk]. rewrite (Qfloor_comp _ _ Hk), Qfloor_Z. exact Hk.
Qed.

Lemma positive_spec (q : Q) : z.positive (JS.Finite q) = true ↔ (0 < q)%Q.
Proof.
  simpl. rewrite negb_true_iff. split.
  - intros H. apply Qnot_le_lt. intros Hle. apply Qle_bool_iff in Hle. congruence.
  - intros H. destruct (Qle_bool q 0) eqn:Hle; [|done].
    apply Qle_bool_iff in Hle. by apply Qlt_not_le in H.
Qed.

Lemma above_spec (m q : Q) : z.above m (JS.Finite q) = false ↔ (q <= m)%Q.
Proof. simpl. rewrite negb_false_iff. apply Qle_bool_iff. Qed.

Lemma number_int_positive_pass (max : option Q) (n : JS.JSNumber) :
  z.number_int_positive max n = []
  ↔ ∃ q, n = JS.Finite q
         ∧ (∃ k, (q == inject_Z k)%Q)
         ∧ (0 < q)%Q
         ∧ match max with Some m => (q <= m)%Q | None => True end.
Proof.
  destruct n as [| | |q]; simpl;
    [split; [done|intros (q & [=] & _)]..|].
  fold (JS.isInteger (JS.Finite q)). fold (z.positive (JS.Finite q)).
  destruct (JS.isInteger (JS.Finite q)) eqn:Hint.
    2:{ split; [done|]. intros (q' & [= <-] & Hk & _).
        apply isInteger_spec in Hk. congruence. }
    destruct (z.positive (JS.Finite q)) eqn:Hpos.
    2:{ split; [done|]. intros (q' & [= <-] & _ & Hq & _).
        apply positive_spec in Hq. congruence. }
    apply isInteger_spec in Hint. apply positive_spec in Hpos.
    destruct max as [m|]; simpl.
    + fold (z.above m (JS.Finite q)).
      destruct (z.above m (JS.Finite q)) eqn:Habove.
      * split; [done|]. intros (q' & [= <-] & _ & _ & Hm).
        apply above_spec in Hm. congruence.
      * apply above_spec in Habove. split; [eauto 6|done].
    + split; [eauto 6|done].
Qed.

Lemma pipe_spec (max : option Q) (x : RawValue) (k : Z) :
  z.string_transform_Number_pipe max x = inr k
  ↔ ∃ s, x = RString s ∧ coercesTo s k ∧ (1 ≤ k)%Z
         ∧ match max with Some m => (inject_Z k <= m)%Q | None => True end.
Proof.
  unfold z.string_transform_Number_pipe, coercesTo.
  destruct x as [s| |]; simpl;
    [|split; [done|intros (s & [=] & _)]..].
  destruct (z.number_int_positive max (JS.Number s)) as [|c cs] eqn:Hchecks.
  - apply number_int_positive_pass in Hchecks as (q & Hn & [k' Hk'] & Hpos & Hmax).
    rewrite Hn. simpl. rewrite (Qfloor_comp _ _ Hk'), Qfloor_Z.
    assert (1 ≤ k')%Z as Hone.
    { rewrite Hk' in Hpos. change 0%Q with (inject_Z 0) in Hpos.
      rewrite <- Zlt_Qlt in Hpos. lia. }
    split.
    + intros [= <-]. exists s. repeat split; [eauto|lia|].
      destruct max as [m|]; [|done]. by rewrite <- Hk'.
    + intros (s' & [= <-] & (q' & Hn' & Hq') & _).
      rewrite Hn in Hn'. injection Hn' as <-.
      f_equal. rewrite Hk' in Hq'. by apply inject_Z_injective.
  - split; [done|].
    intros (s' & [= <-] & (q & Hn & Hq) & Hone & Hmax).
    assert (z.number_int_positive max (JS.Number s) = []) as Hnil; [|congruence].
    apply number_int_positive_pass. exists q. repeat split; [done|eauto| |].
    + rewrite Hq. change 0%Q with (inject_Z 0). rewrite <- Zlt_Qlt. lia.
    + destruct max as [m|]; [|done]. by rewrite Hq.
Qed.

Lemma limitSchema_default : limitSchema None = inr 10%Z.
Proof. vm_compute. reflexivity. Qed.

Lemma pageSchema_default : pageSchema None = inr 1%Z.
Proof. vm_compute. reflexivity. Qed.

Lemma limitSchema_spec (x : option RawValue) (k : Z) :
  limitSchema x = inr k
  ↔ (x = None ∧ k = 10%Z)
    ∨ (∃ s, x = Some (RString s) ∧ coercesTo s k ∧ (1 ≤ k ≤ 100)%Z).
Proof.
  destruct x as [v|].
  - unfold limitSchema, z.default.
    rewrite pipe_spec. change 100%Q with (inject_Z 100). split.
    + intros (s & -> & Hs & Hone & Hmax). rewrite <- Zle_Qle in Hmax. eauto 8.
    + intros [[[=] _]|(s & [= ->] & Hs & Hone & Hmax)].
      exists s. rewrite <- Zle_Qle. eauto.
  - rewrite limitSchema_default. split.
    + intros [= <-]. left. done.
    + intros [[_ ->]|(s & [=] & _)]. done.
Qed.

Lemma pageSchema_spec (x : option RawValue) (k : Z) :
  pageSchema x = inr k
  ↔ (x = None ∧ k = 1%Z)
    ∨ (∃ s, x = Some (RString s) ∧ coercesTo s k ∧ (1 ≤ k)%Z).
Proof.
  destruct x as [v|].
  - unfold pageSchema, z.default. rewrite pipe_spec. split.
    + intros (s & -> & Hs & Hone & _). eauto 8.
    + intros [[[=] _]|(s & [= ->] & Hs & Hone)]. eauto 8.
  - rewrite pageSchema_default. split.
    + intros [= <-]. left. done.
    + intros [[_ ->]|(s & [=] & _)]. done.
Qed.

Ltac generalize_fields raw :=
  unfold leadQuerySchema;
  generalize (z.optional z.string (raw !! "search"));
  generalize (z.optional (z.enum LeadStageEnum stageName) (raw !! "stage"));
  generalize (z.optional (z.enum LeadStatusEnum statusName) (raw !! "status"));
  generalize (z.optional z.string (raw !! "source"));
  generalize (z.optional z.string (raw !! "country"));
  generalize (z.default "createdAt" z.string (raw !! "sortBy"));
  generalize (z.default "desc" (z.enum [asc; desc] sortOrderName) (raw !! "sortOrder")).

Lemma leadQuerySchema_fields (raw : gmap string RawValue) (q : LeadQueryInput.t) :
  leadQuerySchema raw = inr q →
  pageSchema (raw !! "page") = inr (LeadQueryInput.page q)
  ∧ limitSchema (raw !! "limit") = inr (LeadQueryInput.limit q).
Proof.
  generalize_fields raw.
  generalize (pageSchema (raw !! "page")), (limitSchema (raw !! "limit")).
  intros [] [] [] [] [] [] [] [] []; intros [= <-]; done.
Qed.

Lemma leadQuerySchema_page_fails (raw : gmap string RawValue) (codes : list ZodIssueCode) :
  pageSchema (raw !! "page") = inl codes →
  ∃ before after,
    leadQuerySchema raw = inl (before ++ z.issuesAt "page" (inl codes : z.Parsed Z) ++ after).
Proof.
  intros Hpage. revert Hpage. generalize_fields raw.
  generalize (limitSchema (raw !! "limit")).
  generalize (pageSchema (raw !! "page")).
  intros page limit sortOrder sortBy country source status stage search ->.
  exists (z.issuesAt "search" search ++ z.issuesAt "stage" stage
          ++ z.issuesAt "status" status ++ z.issuesAt "source" source
          ++ z.issuesAt "country" country ++ z.issuesAt "sortBy" sortBy
          ++ z.issuesAt "sortOrder" sortOrder),
         (z.issuesAt "limit" limit).
  rewrite <- !app_assoc.
  destruct search, stage, status, source, country, sortBy, sortOrder, limit;
    reflexivity.
Qed.

Lemma leadQuerySchema_limit_fails (raw : gmap string RawValue) (codes : list ZodIssueCode) :
  limitSchema (raw !! "limit") = inl codes →
  ∃ before,
    leadQuerySchema raw = inl (before ++ z.issuesAt "limit" (inl codes : z.Parsed Z)).
Proof.
  intros Hlimit. revert Hlimit. generalize_fields raw.
  generalize (pageSchema (raw !! "page")).
  generalize (limitSchema (raw !! "limit")).
  intros limit page sortOrder sortBy country source status stage search ->.
  exists (z.issuesAt "search" search ++ z.issuesAt "stage" stage
          ++ z.issuesAt "status" status ++ z.issuesAt "source" source
          ++ z.issuesAt "country" country ++ z.issuesAt "sortBy" sortBy
          ++ z.issuesAt "sortOrder" sortOrder ++ z.issuesAt "page" page).
  rewrite <- !app_assoc.
  destruct search, stage, status, source, country, sortBy, sortOrder, page;
    reflexivity.
Qed.

Lemma validated_window (raw : gmap string RawValue) (q : LeadQueryInput.t) :
  leadQuerySchema raw = inr q →
  (1 ≤ LeadQueryInput.page q)%Z ∧ (1 ≤ LeadQueryInput.limit q ≤ 100)%Z.
Proof.
  intros [Hpage Hlimit]%leadQuerySchema_fields.
  apply pageSchema_spec in Hpage. apply limitSchema_spec in Hlimit.
  destruct Hpage as [[_ ->]|(? & _ & _ & ?)], Hlimit as [[_ ->]|(? & _ & _ & ?)]; lia.
Qed.

Lemma leadQuerySchema_limit_500 :
  leadQuerySchema (query1 [("limit", "500")])
  = inl [{| path := "limit"; code := too_big |}].
Proof. vm_compute. reflexivity. Qed.

(** White space around the digits is trimmed, also that beyond ASCII. *)
Example page_after_no_break_space :
  pageSchema (Some (RString (String.append noBreakSpace "5"))) = inr 5%Z
  ∧ limitSchema (Some (RString (String.append " 7" noBreakSpace))) = inr 7%Z.
Proof. split; vm_compute; reflexivity. Qed.

(** C6. The list-query schema accepts [limit] exactly when the key is
    missing (the limit is then 10) or is a string that [Number] coerces to
    an integer from 1 to 100, and [page] exactly when the key is missing
    (the page is then 1) or is a string coerced to an integer of at least
    1; the accepted integers are the [limit] and [page] of the validated
    query. A [limit] or [page] that fails makes the whole query fail: the
    request is answered with the validation errors, that field's among
    them, and the handler is not run. [limit=500] fails as too big and is
    not clamped; a non-numeric or non-positive [page] fails. *)
Theorem page_limit_validation :
  (∀ (x : option RawValue) (k : Z),
     limitSchema x = inr k
     ↔ (x = None ∧ k = 10%Z)
       ∨ (∃ s, x = Some (RString s) ∧ coercesTo s k ∧ (1 ≤ k ≤ 100)%Z))
  ∧ (∀ (x : option RawValue) (k : Z),
       pageSchema x = inr k
       ↔ (x = None ∧ k = 1%Z)
         ∨ (∃ s, x = Some (RString s) ∧ coercesTo s k ∧ (1 ≤ k)%Z))
  ∧ (∀ (raw : gmap string RawValue) (q : LeadQueryInput.t),
       leadQuerySchema raw = inr q →
       pageSchema (raw !! "page") = inr (LeadQueryInput.page q)
       ∧ limitSchema (raw !! "limit") = inr (LeadQueryInput.limit q))
  ∧ (∀ (raw : gmap string RawValue) (codes : list ZodIssueCode) (s : Store),
       limitSchema (raw !! "limit") = inl codes →
       ∃ errors,
         GET_leads raw s = (resolved (validationError errors), s)
         ∧ ∀ c, c ∈ codes → {| path := "limit"; code := c |} ∈ errors)
  ∧ (∀ (raw : gmap string RawValue) (codes : list ZodIssueCode) (s : Store),
       pageSchema (raw !! "page") = inl codes →
       ∃ errors,
         GET_leads raw s = (resolved (validationError errors), s)
         ∧ ∀ c, c ∈ codes → {| path := "page"; code := c |} ∈ errors)
  ∧ limitSchema (Some (RString "500")) = inl [too_big]
  ∧ (∀ s : Store,
       GET_leads (query1 [("limit", "500")]) s
       = (resolved (validationError [{| path := "limit"; code := too_big |}]), s))
  ∧ pageSchema (Some (RString "abc")) = inl [invalid_type]
  ∧ pageSchema (Some (RString "0")) = inl [too_small]
  ∧ pageSchema (Some (RString "-3")) = inl [too_small]
  ∧ pageSchema (Some (RString "1.5")) = inl [invalid_type].
Proof.
  split; [exact limitSchema_spec|].
  split; [exact pageSchema_spec|].
  split; [exact leadQuerySchema_fields|].
  split.
  { intros raw codes s [before Hraw]%leadQuerySchema_limit_fails.
    eexists. unfold GET_leads, validate. rewrite Hraw. split; [reflexivity|].
    intros c Hc. apply elem_of_app. right. simpl.
    apply list_elem_of_fmap. eauto. }
  split.
  { intros raw codes s (before & after & Hraw)%leadQuerySchema_page_fails.
    eexists. unfold GET_leads, validate. rewrite Hraw. split; [reflexivity|].
    intros c Hc. apply elem_of_app. right. apply elem_of_app. left. simpl.
    apply list_elem_of_fmap. eauto. }
  split; [vm_compute; reflexivity|].
  split.
  { intros s. unfold GET_leads, validate. by rewrite leadQuerySchema_limit_500. }
  repeat split; vm_compute; reflexivity.
Qed.

(** ** The page window and the pagination metadata *)

Lemma GET_leads_run (raw : gmap string RawValue) (q : LeadQueryInput.t) (s : Store) :
  leadQuerySchema raw = inr q →
  GET_leads raw s =
  (resolved
     match assoc (LeadQueryInput.sortBy q) leadFields with
     | Some key => json 200 (pageOf q key s)
     | None => internalServerError
     end, s).
Proof. intros Hq. unfold GET_leads, validate. rewrite Hq. apply getLeads_run. Qed.

(** A [sortBy] that names no field of [Lead] passes validation, the store
    refuses it, and the handler answers 500, whatever the window. *)
Lemma GET_leads_unknown_sortBy (raw : gmap string RawValue) (q : LeadQueryInput.t)
    (s : Store) :
  leadQuerySchema raw = inr q →
  assoc (LeadQueryInput.sortBy q) leadFields = None →
  GET_leads raw s = (resolved internalServerError, s).
Proof. intros Hq Hkey. by rewrite (GET_leads_run raw q s Hq), Hkey. Qed.

Example GET_leads_sortBy_nope :
  GET_leads (query1 [("sortBy", "nope")]) seeded
  = (resolved internalServerError, seeded).
Proof. vm_compute. reflexivity. Qed.

Lemma sortedMatching_length (q : LeadQueryInput.t) (key : Lead.t → Scalar) (s : Store) :
  length (sortedMatching q key s)
  = length (prisma_lead.matching (Some (buildWhere q)) s).
Proof. unfold sortedMatching. by rewrite merge_sort_Permutation. Qed.



Lemma ceilDiv_spec (a b : Z) :
  (0 < b)%Z → ((JS.ceilDiv a b - 1) * b < a ≤ JS.ceilDiv a b * b)%Z.
Proof.
  intros Hb. unfold JS.ceilDiv.
  assert (0 < inject_Z b)%Q as HbQ.
  { change 0%Q with (inject_Z 0). by rewrite <- Zlt_Qlt. }
  assert (inject_Z a == inject_Z a / inject_Z b * inject_Z b)%Q as Ha.
  { rewrite Qmult_comm, Qmult_div_r; [reflexivity|].
    intros H0. rewrite H0 in HbQ. by apply Qlt_irrefl in HbQ. }
  split.
  - rewrite Zlt_Qlt, inject_Z_mult.
    eapply Qlt_le_trans;
      [apply Qmult_lt_compat_r; [exact HbQ|apply Qceiling_lt]|].
    rewrite <- Ha. apply Qle_refl.
  - rewrite Zle_Qle, inject_Z_mult.
    eapply Qle_trans;
      [|apply Qmult_le_compat_r; [apply Qle_ceiling|by apply Qlt_le_weak]].
    rewrite <- Ha. apply Qle_refl.
Qed.

Lemma buildWhere_withWindow (page limit : Z) (q : LeadQueryInput.t) :
  buildWhere (withWindow page limit q) = buildWhere q.
Proof. by rewrite !buildWhere_eq. Qed.

(** C3. In a successful answer to a validated list query, [total] is the
    number of leads that match the filter, a number the page window has no
    part in (the filter is the same for every [page] and [limit]);
    [totalPages] is Math.ceil(total / limit), the least number of pages of
    [limit] records that hold [total] records; and [totalPages] is 0
    exactly when [total] is 0. *)
Theorem pagination_metadata (raw : gmap string RawValue) (q : LeadQueryInput.t)
    (s s' : Store) (resp : PaginatedResponse.t) :
  leadQuerySchema raw = inr q →
  GET_leads raw s = (resolved (json 200 resp), s') →
  Pagination.total (PaginatedResponse.pagination resp)
  = length (prisma_lead.matching (Some (buildWhere q)) s)
  ∧ (∀ page limit : Z,
       prisma_lead.matching (Some (buildWhere (withWindow page limit q))) s
       = prisma_lead.matching (Some (buildWhere q)) s)
  ∧ Pagination.limit (PaginatedResponse.pagination resp) = LeadQueryInput.limit q
  ∧ Pagination.totalPages (PaginatedResponse.pagination resp)
    = JS.ceilDiv (Z.of_nat (Pagination.total (PaginatedResponse.pagination resp)))
        (LeadQueryInput.limit q)
  ∧ ((Pagination.totalPages (PaginatedResponse.pagination resp) - 1)
       * LeadQueryInput.limit q
     < Z.of_nat (Pagination.total (PaginatedResponse.pagination resp))
     ≤ Pagination.totalPages (PaginatedResponse.pagination resp)
       * LeadQueryInput.limit q)%Z
  ∧ (Pagination.totalPages (PaginatedResponse.pagination resp) = 0%Z
     ↔ Pagination.total (PaginatedResponse.pagination resp) = 0).
Proof.
  intros Hq Hrun. destruct (validated_window raw q Hq) as [_ Hlimit].
  rewrite (GET_leads_run raw q s Hq) in Hrun.
  destruct (assoc (LeadQueryInput.sortBy q) leadFields) as [key|];
    [|discriminate].
  injection Hrun as <- _. cbn [pageOf PaginatedResponse.pagination
    Pagination.total Pagination.limit Pagination.totalPages].
  set (total := length (prisma_lead.matching (Some (buildWhere q)) s)).
  pose proof (ceilDiv_spec (Z.of_nat total) (LeadQueryInput.limit q)) as Hceil.
  split; [reflexivity|].
  split; [intros page limit; by rewrite buildWhere_withWindow|].
  split; [reflexivity|]. split; [reflexivity|].
  split; [apply Hceil; lia|]. nia.
Qed.

Lemma pagination_metadata_witness :
  Pagination.total
    (PaginatedResponse.pagination
       (pageOf (LeadQueryInput.mk None None None None None "createdAt" desc 2 1)
          (λ r, SDate (Lead.createdAt r)) seeded)) = 3
  ∧ Pagination.totalPages
      (PaginatedResponse.pagination
         (pageOf (LeadQueryInput.mk None None None None None "createdAt" desc 2 1)
            (λ r, SDate (Lead.createdAt r)) seeded)) = 3%Z.
Proof.
  destruct (pagination_metadata (query1 [("page", "2"); ("limit", "1")])
              (LeadQueryInput.mk None None None None None "createdAt" desc 2 1)
              seeded seeded
              (pageOf (LeadQueryInput.mk None None None None None "createdAt" desc 2 1)
                 (λ r, SDate (Lead.createdAt r)) seeded))
    as (Htotal & _ & _ & Hpages & _).
  - vm_compute. reflexivity.
  - vm_compute. reflexivity.
  - split; [rewrite Htotal|rewrite Hpages]; vm_compute; reflexivity.
Defined.

(** ** The identifier schema and the single-record lookup *)

Lemma nat_of_ascii_lt (c : ascii) : nat_of_ascii c < 256.
Proof. apply nat_ascii_bounded. Qed.

Lemma hexClass_spec (c : ascii) : hexClass c = true ↔ hexadecimal c.
Proof.
  unfold hexClass, hexadecimal, toLowerAscii.
  pose proof (nat_of_ascii_lt c) as Hc.
  destruct ((65 <=? nat_of_ascii c) && (nat_of_ascii c <=? 90)) eqn:Hupper.
  - apply andb_true_iff in Hupper as [H1%Nat.leb_le H2%Nat.leb_le].
    rewrite nat_ascii_embedding by lia.
    rewrite orb_true_iff, !andb_true_iff, !Nat.leb_le. lia.
  - apply andb_false_iff in Hupper.
    rewrite orb_true_iff, !andb_true_iff, !Nat.leb_le.
    destruct Hupper as [H%Nat.leb_gt|H%Nat.leb_gt]; lia.
Qed.








Lemma GET_leads_id_run (id : string) (s : Store) :
  GET_leads_id id s =
  (resolved
     (if objectIdRegex id then
        match parseObjectId id with
        | Some oid =>
            match List.find (λ r, (Lead.id r =? oid)%N) s with
            | Some lead => json 200 lead
            | None => jsonError 404 "Lead not found"
            end
        | None => internalServerError
        end
      else validationError [{| path := "id"; code := invalid_string |}]), s).
Proof.
  unfold GET_leads_id, validate, leadIdSchema.
  destruct (objectIdRegex id); [apply getLeadById_run|reflexivity].
Qed.


Example lookup_uppercase_id :
  (GET_leads_id "00000000000000000000000A" seeded).1
  = resolved (jsonError 404 "Lead not found").
Proof. vm_compute. reflexivity. Qed.

Example lookup_existing_id :
  (GET_leads_id "000000000000000000000002" seeded).1 = resolved (json 200 lead2).
Proof. vm_compute. reflexivity. Qed.

Example lookup_short_id :
  (GET_leads_id "00000000000000000000002" seeded).1
  = resolved (validationError [{| path := "id"; code := invalid_string |}]).
Proof. vm_compute. reflexivity. Qed.

(** ** Analytics: total and average value *)

Lemma orZero_roundDouble (x : Q) :
  JS.orZero (Some (JS.roundDouble x)) = JS.roundDouble x.
Proof.
  unfold JS.roundDouble. destruct (Qeq_bool x 0); [reflexivity|]. cbv zeta.
  destruct (Qle_bool (Qpower 2 1024) _); [by destruct (Qle_bool 0 x)|].
  set (v := Qred _). cbn [JS.orZero].
  destruct (Qeq_bool v 0) eqn:Hv; [|reflexivity].
  apply Qeq_bool_iff in Hv. unfold v in *. rewrite Qred_correct in Hv.
  apply Qred_complete in Hv. by rewrite Hv.
Qed.


(** The store's sum reaches the answer as it is: [|| 0] changes no double
    but [NaN], which a sum of finite values is not. *)
Lemma analytics_totalValue (s : Store) :
  s ≠ [] → AnalyticsData.totalValue (analyticsOf s) = JS.roundDouble (sumValues s).
Proof. destruct s; [done|]. intros _. apply orZero_roundDouble. Qed.


Example analytics_seeded_average :
  AnalyticsData.totalValue (analyticsOf seeded) = JS.Finite 21000
  ∧ AnalyticsData.averageValue (analyticsOf seeded) = JS.Finite 7000.
Proof. split; vm_compute; reflexivity. Qed.

(** A mean that is no double is rounded to one: of 5000, 5000 and 7000 it
    is the double nearest 17000/3, printed 5666.666666666667. *)
Example analytics_rounded_average :
  let a := analyticsOf thirds in
  AnalyticsData.totalValue a = JS.Finite 17000
  ∧ AnalyticsData.averageValue a = JS.Finite (6230565890730667 # 1099511627776)
  ∧ ¬ (6230565890730667 # 1099511627776 == 17000 # 3)%Q.
Proof. repeat split; vm_compute; congruence. Qed.

(** ** Grouping *)

Section grouping_facts.
Context {K : Type} `{EqDecision K}.
Implicit Types (k : K) (gs : list (Group K)) (l : list Lead.t).

Lemma bump_sum k gs :
  sum_list (_count <$> bump k gs) = S (sum_list (_count <$> gs)).
Proof.
  induction gs as [|g gs IH]; csimpl; [done|].
  case_decide; csimpl; [done|]. rewrite IH. lia.
Qed.

Lemma bump_keys k gs :
  by_ <$> bump k gs
  = if decide (k ∈ by_ <$> gs) then by_ <$> gs else (by_ <$> gs) ++ [k].
Proof.
  induction gs as [|g gs IH]; csimpl.
  - done.
  - destruct (decide (by_ g = k)) as [Hg|Hg]; csimpl.
    + rewrite decide_True by (rewrite Hg; apply list_elem_of_here). by rewrite Hg.
    + rewrite IH. destruct (decide (k ∈ by_ <$> gs)) as [Hk|Hk].
      * by rewrite decide_True by by apply list_elem_of_further.
      * rewrite decide_False; [done|].
        intros [?|?]%elem_of_cons; congruence.
Qed.

Lemma bump_NoDup k gs : NoDup (by_ <$> gs) → NoDup (by_ <$> bump k gs).
Proof.
  intros Hgs. rewrite bump_keys. case_decide; [done|].
  apply NoDup_app. split; [done|]. split; [|apply NoDup_singleton].
  intros k' Hk' ->%list_elem_of_singleton. done.
Qed.

Lemma bump_positive k gs :
  Forall (λ g, 0 < _count g) gs → Forall (λ g, 0 < _count g) (bump k gs).
Proof.
  induction 1 as [|g gs Hg Hgs IH]; csimpl.
  - repeat constructor.
  - case_decide; constructor; csimpl; auto with lia.
Qed.

Lemma bump_countFor k k' gs :
  countFor k' (bump k gs)
  = countFor k' gs + (if decide (k = k') then 1 else 0).
Proof.
  unfold countFor. induction gs as [|g gs IH]; csimpl.
  - rewrite filter_cons. csimpl. by destruct (decide (k = k')).
  - destruct (decide (by_ g = k)) as [<-|Hg]; rewrite !filter_cons; csimpl.
    + destruct (decide (by_ g = k')); csimpl; lia.
    + destruct (decide (by_ g = k')); csimpl; rewrite IH; lia.
Qed.

Lemma foldl_bump_facts (key : Lead.t → K) l gs :
  NoDup (by_ <$> gs) → Forall (λ g, 0 < _count g) gs →
  NoDup (by_ <$> foldl (λ gs r, bump (key r) gs) gs l)
  ∧ Forall (λ g, 0 < _count g) (foldl (λ gs r, bump (key r) gs) gs l)
  ∧ sum_list (_count <$> foldl (λ gs r, bump (key r) gs) gs l)
    = sum_list (_count <$> gs) + length l
  ∧ ∀ k, countFor k (foldl (λ gs r, bump (key r) gs) gs l)
         = countFor k gs + countOf key k l.
Proof.
  revert gs. induction l as [|r l IH]; intros gs Hnodup Hpos; csimpl.
  - repeat split; auto.
  - destruct (IH (bump (key r) gs)) as (H1 & H2 & H3 & H4);
      [by apply bump_NoDup|by apply bump_positive|].
    repeat split; [done|done|rewrite H3, bump_sum; lia|].
    intros k. rewrite H4, bump_countFor. unfold countOf. csimpl.
    destruct (decide (key r = k)) as [Hk|Hk].
    + rewrite bool_decide_eq_true_2 by done. csimpl. lia.
    + rewrite bool_decide_eq_false_2 by done. lia.
Qed.

Lemma groups_facts (key : Lead.t → K) l :
  NoDup (by_ <$> groups key l)
  ∧ Forall (λ g, 0 < _count g) (groups key l)
  ∧ sum_list (_count <$> groups key l) = length l
  ∧ ∀ k, countFor k (groups key l) = countOf key k l.
Proof.
  destruct (foldl_bump_facts key l []) as (H1 & H2 & H3 & H4);
    [apply NoDup_nil_2|constructor|].
  unfold groups. split; [done|]. split; [done|]. split; [exact H3|].
  intros k. by rewrite H4.
Qed.

Lemma countFor_absent k gs : k ∉ by_ <$> gs → countFor k gs = 0.
Proof.
  unfold countFor. induction gs as [|g gs IH]; csimpl; [done|].
  intros Hk. rewrite filter_cons.
  destruct (decide (by_ g = k)) as [<-|Hg].
  - exfalso. apply Hk. apply list_elem_of_here.
  - apply IH. intros ?. apply Hk. by apply list_elem_of_further.
Qed.

Lemma countFor_elem g gs :
  NoDup (by_ <$> gs) → g ∈ gs → countFor (by_ g) gs = _count g.
Proof.
  induction gs as [|g' gs IH]; csimpl.
  - intros _ ?%elem_of_nil. done.
  - intros [Hg' Hgs]%NoDup_cons [->|Hg]%elem_of_cons.
    + unfold countFor. rewrite filter_cons, decide_True by done. csimpl.
      fold (countFor (by_ g') gs). rewrite countFor_absent by done. lia.
    + unfold countFor. rewrite filter_cons, decide_False.
      * by apply IH.
      * intros Heq. apply Hg'. rewrite Heq. by apply list_elem_of_fmap_2.
Qed.

Lemma countFor_Permutation k gs gs' : gs ≡ₚ gs' → countFor k gs = countFor k gs'.
Proof. intros Hp. unfold countFor. by rewrite Hp. Qed.

Lemma countFor_positive k gs : 0 < countFor k gs → ∃ g, g ∈ gs ∧ by_ g = k.
Proof.
  intros Hk. destruct (decide (k ∈ by_ <$> gs)) as [Hin|Hout].
  - apply list_elem_of_fmap in Hin as (g & -> & Hg). eauto.
  - rewrite countFor_absent in Hk by done. lia.
Qed.

#[export] Instance countDesc_transitive : Transitive (@countDesc K).
Proof. intros a b c. unfold countDesc. lia. Qed.

#[export] Instance countDesc_total : Total (@countDesc K).
Proof. intros a b. unfold countDesc. lia. Qed.

End grouping_facts.

(** ** Analytics: the counts by stage, by status and by source *)

#[export] Instance statusName_inj : Inj (=) (=) statusName.
Proof. intros [] []; simpl; congruence. Qed.

#[export] Instance stageName_inj : Inj (=) (=) stageName.
Proof. intros [] []; simpl; congruence. Qed.

Lemma sumCounts_insert (m : gmap string nat) (k : string) (c : nat) :
  m !! k = None → sumCounts (<[k:=c]> m) = c + sumCounts m.
Proof.
  intros Hk. unfold sumCounts. apply map_fold_insert_L; [|done].
  intros. lia.
Qed.

Section reduce_facts.
Context {K : Type} `{EqDecision K} (name : K → string) `{!Inj (=) (=) name}.
Implicit Types (k : K) (gs : list (Group K)) (acc : gmap string nat).

Lemma foldl_insert_sum gs acc :
  NoDup (by_ <$> gs) →
  (∀ g, g ∈ gs → acc !! name (by_ g) = None) →
  sumCounts (foldl (λ acc item, <[name (by_ item) := _count item]> acc) acc gs)
  = sumCounts acc + sum_list (_count <$> gs).
Proof.
  revert acc. induction gs as [|g gs IH]; intros acc Hnodup Hfresh; csimpl.
  - lia.
  - apply NoDup_cons in Hnodup as [Hg Hgs].
    rewrite IH, sumCounts_insert; [lia|apply Hfresh, list_elem_of_here|done|].
    intros g' Hg'. rewrite lookup_insert_ne.
    + apply Hfresh. by apply list_elem_of_further.
    + intros Heq%(inj name). apply Hg. rewrite Heq. by apply list_elem_of_fmap_2.
Qed.

Lemma foldl_insert_lookup gs acc k :
  NoDup (by_ <$> gs) →
  foldl (λ acc item, <[name (by_ item) := _count item]> acc) acc gs !! name k
  = if decide (k ∈ by_ <$> gs) then Some (countFor k gs) else acc !! name k.
Proof.
  revert acc. induction gs as [|g gs IH]; intros acc Hnodup; csimpl; [done|].
  apply NoDup_cons in Hnodup as [Hg Hgs]. rewrite IH by done.
  unfold countFor. rewrite filter_cons.
  destruct (decide (by_ g = k)) as [<-|Hne].
  - rewrite decide_False by done.
    rewrite decide_True by apply list_elem_of_here.
    rewrite lookup_insert_eq. csimpl. fold (countFor (by_ g) gs).
    rewrite countFor_absent by done. f_equal. lia.
  - destruct (decide (k ∈ by_ <$> gs)) as [Hk|Hk].
    + by rewrite decide_True by by apply list_elem_of_further.
    + rewrite decide_False by (intros [?|?]%elem_of_cons; congruence).
      apply lookup_insert_ne. intros Heq%(inj name). done.
Qed.

Lemma reduceCounts_groups (key : Lead.t → K) (l : list Lead.t) :
  sumCounts (reduceCounts name (groups key l)) = length l
  ∧ ∀ k n, reduceCounts name (groups key l) !! name k = Some n
            ↔ 0 < n ∧ n = countOf key k l.
Proof.
  destruct (groups_facts key l) as (Hnodup & Hpos & Hsum & Hcount).
  unfold reduceCounts. split.
  - rewrite foldl_insert_sum, Hsum; [done|done|]. intros. apply lookup_empty.
  - intros k n. rewrite foldl_insert_lookup, Hcount, lookup_empty by done.
    destruct (decide (k ∈ by_ <$> groups key l)) as [Hk|Hk].
    + apply list_elem_of_fmap in Hk as (g & -> & Hg).
      assert (0 < countOf key (by_ g) l).
      { rewrite <- Hcount, countFor_elem by done.
        by apply (proj1 (Forall_forall _ _) Hpos). }
      split; [intros [= <-]; done|intros [_ ->]; done].
    + split; [done|]. intros [Hn ->]. rewrite <- Hcount in Hn.
      apply countFor_positive in Hn as (g & Hg & <-).
      exfalso. apply Hk. by apply list_elem_of_fmap_2.
Qed.

End reduce_facts.

(** C8. In every analytics answer the counts of the [leadsByStatus]
    mapping add up to [totalLeads]; each status with a lead is a key, with
    the number of leads of that status, and no other status is. The
    handler's queries all read the one collection it was given. *)
Theorem leadsByStatus_sums_to_total (s : Store) :
  ∃ a : AnalyticsData.t,
    GET_leads_analytics s = (resolved (json 200 a), s)
    ∧ AnalyticsData.totalLeads a = length s
    ∧ sumCounts (AnalyticsData.leadsByStatus a) = AnalyticsData.totalLeads a
    ∧ ∀ (status : LeadStatus) (n : nat),
        AnalyticsData.leadsByStatus a !! statusName status = Some n
        ↔ 0 < n ∧ n = countOf Lead.status status s.
Proof.
  exists (analyticsOf s). unfold GET_leads_analytics. rewrite getAnalytics_run.
  split; [reflexivity|]. split; [reflexivity|].
  cbn [analyticsOf AnalyticsData.leadsByStatus AnalyticsData.totalLeads].
  apply (reduceCounts_groups statusName Lead.status s).
Qed.

Example leadsByStatus_seeded :
  AnalyticsData.leadsByStatus (analyticsOf seeded)
  = {[ "ACTIVE" := 1; "CONVERTED" := 1; "REJECTED" := 1 ]}.
Proof. vm_compute. reflexivity. Qed.




(** ** The scenarios of the specification, run *)

Example scenario_stage_NEW :
  ∃ pagination,
    (GET_leads (query1 [("stage", "NEW")]) seeded).1
    = resolved (json 200 (PaginatedResponse.mk [lead1] pagination)).
Proof. eexists. vm_compute. reflexivity. Qed.

Example scenario_analytics :
  AnalyticsData.totalLeads (analyticsOf seeded) = 3
  ∧ AnalyticsData.convertedLeads (analyticsOf seeded) = 1
  ∧ AnalyticsData.activeLeads (analyticsOf seeded) = 1.
Proof. repeat split. Qed.

Example scenario_page_2_limit_1 :
  (GET_leads (query1 [("page", "2"); ("limit", "1")]) seeded).1
  = resolved (json 200 (PaginatedResponse.mk [lead2] (Pagination.mk 3 2 1 3))).
Proof. vm_compute. reflexivity. Qed.

Example scenario_page_beyond :
  (GET_leads (query1 [("page", "7"); ("limit", "2")]) seeded).1
  = resolved (json 200 (PaginatedResponse.mk [] (Pagination.mk 3 7 2 2))).
Proof. vm_compute. reflexivity. Qed.

Example scenario_search_ignores_case :
  ∃ pagination,
    (GET_leads (query1 [("search", "SMITH")]) seeded).1
    = resolved (json 200 (PaginatedResponse.mk [lead1] pagination)).
Proof. eexists. vm_compute. reflexivity. Qed.

(** * Further properties of the list query *)



Lemma pageOf_data_length (q : LeadQueryInput.t) (key : Lead.t → Scalar) (s : Store) :
  length (PaginatedResponse.data (pageOf q key s))
  = Nat.min (Z.to_nat (LeadQueryInput.limit q))
      (length (prisma_lead.matching (Some (buildWhere q)) s)
       - Z.to_nat ((LeadQueryInput.page q - 1) * LeadQueryInput.limit q)).
Proof.
  cbn [pageOf PaginatedResponse.data].
  by rewrite length_take, length_drop, sortedMatching_length.
Qed.

(** A page of a validated query holds a record exactly when its number is
    at most [totalPages]: the data is empty if and only if
    [totalPages < page]. *)
Theorem page_empty_iff_beyond (raw : gmap string RawValue) (q : LeadQueryInput.t)
    (key : Lead.t → Scalar) (s : Store) :
  leadQuerySchema raw = inr q →
  PaginatedResponse.data (pageOf q key s) = []
  ↔ (Pagination.totalPages (PaginatedResponse.pagination (pageOf q key s))
     < LeadQueryInput.page q)%Z.
Proof.
  intros Hq. destruct (validated_window raw q Hq) as [Hpage Hlimit].
  rewrite <- length_zero_iff_nil, pageOf_data_length.
  cbn [pageOf PaginatedResponse.pagination Pagination.totalPages].
  set (total := length (prisma_lead.matching (Some (buildWhere q)) s)).
  pose proof (ceilDiv_spec (Z.of_nat total) (LeadQueryInput.limit q)) as Hceil.
  split; intros H; nia.
Qed.

Lemma page_empty_iff_beyond_witness :
  PaginatedResponse.data
    (pageOf (LeadQueryInput.mk None None None None None "createdAt" desc 7 2)
       (λ r, SDate (Lead.createdAt r)) seeded) = [].
Proof.
  apply (page_empty_iff_beyond (query1 [("page", "7"); ("limit", "2")])).
  - vm_compute. reflexivity.
  - vm_compute. reflexivity.
Defined.

Lemma sortedMatching_withWindow (page limit : Z) (q : LeadQueryInput.t)
    (key : Lead.t → Scalar) (s : Store) :
  sortedMatching (withWindow page limit q) key s = sortedMatching q key s.
Proof. unfold sortedMatching. by rewrite buildWhere_withWindow. Qed.

Lemma pagesUpTo_take (q : LeadQueryInput.t) (key : Lead.t → Scalar) (s : Store)
    (n : nat) :
  (1 ≤ LeadQueryInput.limit q)%Z →
  pagesUpTo q key s n
  = take (n * Z.to_nat (LeadQueryInput.limit q)) (sortedMatching q key s).
Proof.
  intros Hlimit. unfold pagesUpTo. induction n as [|n IH]; [done|].
  rewrite seq_S, fmap_app, join_app, IH. csimpl. rewrite app_nil_r.
  rewrite sortedMatching_withWindow.
  replace (Z.to_nat ((Z.of_nat (S n) - 1) * LeadQueryInput.limit q))
    with (n * Z.to_nat (LeadQueryInput.limit q)) by nia.
  rewrite take_take_drop. f_equal. lia.
Qed.

Lemma filter_composition_iff (query : LeadQueryInput.t) (s : Store) (r : Lead.t) :
  In r (prisma_lead.matching (Some (buildWhere query)) s)
  ↔ In r s ∧ satisfiesTruthy query r.
Proof.
  unfold prisma_lead.matching. rewrite filter_In, eval_buildWhere. reflexivity.
Qed.

Lemma scalar_leb_total (a b : Scalar) : scalar_leb a b = true ∨ scalar_leb b a = true.
Proof.
  destruct a as [|x|x|x|x], b as [|y|y|y|y]; simpl; auto.
  - destruct (N.leb_spec x y); [auto|]. right. apply N.leb_le. lia.
  - apply String.leb_total.
  - rewrite !Qle_bool_iff. destruct (Qlt_le_dec x y); [left; by apply Qlt_le_weak|auto].
  - destruct (Z.leb_spec x y); [auto|]. right. apply Z.leb_le. lia.
Qed.

#[export] Instance orderedBy_total key o : Total (orderedBy key o).
Proof.
  intros a b. unfold orderedBy.
  destruct o; [destruct (scalar_leb_total (key a) (key b))
              |destruct (scalar_leb_total (key b) (key a))];
    rewrite !Is_true_true; auto.
Qed.

Lemma Sorted_drop {A : Type} (R : relation A) (n : nat) (l : list A) :
  Sorted R l → Sorted R (drop n l).
Proof.
  revert l. induction n as [|n IH]; intros l Hl; [done|].
  destruct l as [|x l]; [done|]. apply IH. by apply Sorted_inv in Hl as [? _].
Qed.

Lemma Sorted_take {A : Type} (R : relation A) (n : nat) (l : list A) :
  Sorted R l → Sorted R (take n l).
Proof.
  revert l. induction n as [|n IH]; intros l Hl; [constructor|].
  destruct l as [|x l]; [constructor|].
  apply Sorted_inv in Hl as [Hl Hx]. csimpl. constructor; [by apply IH|].
  destruct n, l; csimpl; try constructor. by apply HdRel_inv in Hx.
Qed.

Lemma ascii_compare_N (x y : ascii) :
  Ascii.compare x y = (N_of_ascii x ?= N_of_ascii y)%N.
Proof. reflexivity. Qed.

Lemma string_leb_trans (a b c : string) :
  String.leb a b = true → String.leb b c = true → String.leb a c = true.
Proof.
  unfold String.leb. revert b c.
  induction a as [|x a IH]; intros [|y b] [|z c]; cbn [String.compare];
    try done.
  rewrite !ascii_compare_N.
  destruct (N.compare_spec (N_of_ascii x) (N_of_ascii y)) as [Hxy|Hxy|Hxy],
           (N.compare_spec (N_of_ascii y) (N_of_ascii z)) as [Hyz|Hyz|Hyz],
           (N.compare_spec (N_of_ascii x) (N_of_ascii z)) as [Hxz|Hxz|Hxz];
    try done; try lia.
  apply IH.
Qed.

Lemma scalar_leb_trans (a b c : Scalar) :
  comparable a b = true → comparable b c = true →
  scalar_leb a b → scalar_leb b c → scalar_leb a c.
Proof.
  destruct a as [|x|x|x|x], b as [|y|y|y|y], c as [|z|z|z|z];
    cbn [comparable scalar_leb]; try done; intros _ _;
    rewrite !Is_true_true.
  - rewrite !N.leb_le. lia.
  - apply string_leb_trans.
  - rewrite !Qle_bool_iff. apply Qle_trans.
  - rewrite !Z.leb_le. lia.
Qed.

(** The values of one field of [Lead] are of one type, or null. *)
Lemma leadFields_comparable (field : string) (key : Lead.t → Scalar) :
  assoc field leadFields = Some key → ∀ r r', comparable (key r) (key r') = true.
Proof.
  unfold leadFields. cbn [assoc].
  repeat (destruct (String.eqb field _);
          [intros [= <-] r r'; unfold ofOption; by repeat case_match|]).
  done.
Qed.

Lemma orderedBy_trans (field : string) (key : Lead.t → Scalar) (o : SortOrder) :
  assoc field leadFields = Some key → Transitive (orderedBy key o).
Proof.
  intros Hkey a b c. pose proof (leadFields_comparable field key Hkey) as Hc.
  destruct o; cbn [orderedBy]; intros Hab Hbc.
  - by apply (scalar_leb_trans _ (key b)).
  - by apply (scalar_leb_trans _ (key b)).
Qed.

Lemma untied_elem_of (key : Lead.t → Scalar) (l : list Lead.t) (a b : Lead.t) :
  untied key l → a ∈ l → b ∈ l → tie key a b = true → a = b.
Proof.
  intros Hl Ha%list_elem_of_In Hb%list_elem_of_In Htie.
  destruct (ForallOrdPairs_In Hl a b Ha Hb) as [?|[Hab|Hba]]; [done|congruence|].
  unfold tie in *. rewrite andb_comm in Hba. congruence.
Qed.

(** A list holds one arrangement at most that is sorted, when no two of
    its elements are each before the other. *)
Lemma sorted_arrangement_unique {A : Type} (R : relation A) (l1 l2 : list A) :
  (∀ a b, a ∈ l1 → b ∈ l1 → R a b → R b a → a = b) →
  StronglySorted R l1 → StronglySorted R l2 → l1 ≡ₚ l2 → l1 = l2.
Proof.
  revert l2. induction l1 as [|a l1 IH]; intros l2 Hanti H1 H2 Hperm.
  - by apply Permutation_nil in Hperm.
  - destruct l2 as [|b l2]; [by apply Permutation_sym, Permutation_nil in Hperm|].
    apply StronglySorted_inv in H1 as [H1 Ha], H2 as [H2 Hb].
    rewrite Forall_forall in Ha, Hb.
    assert (a = b) as <-.
    { assert (a ∈ b :: l2) as Ha2 by (rewrite <- Hperm; left).
      assert (b ∈ a :: l1) as Hb1 by (rewrite Hperm; left).
      apply elem_of_cons in Ha2 as [?|Ha2]; [done|].
      apply elem_of_cons in Hb1 as [?|Hb1]; [done|].
      apply Hanti; [left|by right|by apply Ha|by apply Hb]. }
    f_equal. apply IH; [|done|done|by apply Permutation_cons_inv in Hperm].
    intros x y Hx Hy. apply Hanti; by right.
Qed.

Lemma sortedMatching_unique (q : LeadQueryInput.t) (key : Lead.t → Scalar)
    (s : Store) (l : list Lead.t) :
  assoc (LeadQueryInput.sortBy q) leadFields = Some key →
  untied key (prisma_lead.matching (Some (buildWhere q)) s) →
  l ≡ₚ prisma_lead.matching (Some (buildWhere q)) s →
  Sorted (orderedBy key (LeadQueryInput.sortOrder q)) l →
  l = sortedMatching q key s.
Proof.
  intros Hkey Huntied Hperm Hsorted.
  pose proof (orderedBy_trans _ key (LeadQueryInput.sortOrder q) Hkey) as Htrans.
  apply (sorted_arrangement_unique (orderedBy key (LeadQueryInput.sortOrder q))).
  - intros a b Ha Hb Hab Hba. rewrite Hperm in Ha, Hb.
    apply (untied_elem_of key _ a b Huntied Ha Hb).
    unfold tie. destruct (LeadQueryInput.sortOrder q); cbn [orderedBy] in Hab, Hba;
      apply Is_true_true in Hab, Hba; by rewrite Hab, Hba.
  - by apply Sorted_StronglySorted.
  - apply Sorted_StronglySorted; [done|]. unfold sortedMatching.
    apply (Sorted_merge_sort _).
  - unfold sortedMatching. by rewrite merge_sort_Permutation.
Qed.

(** When [sortBy] names a field of [Lead] on which no two matching records
    tie, the filtered, sorted sequence does not depend on how the store
    orders equal keys: every sorted arrangement of the matching records is
    that sequence. The pages of the query, with a limit of at least 1,
    then follow one another without gap or overlap: pages 1 to n, one
    after the other, are the first n * limit records of the sequence, and
    pages 1 to [totalPages] are the whole of it. *)
Theorem pages_cover_the_result (q : LeadQueryInput.t) (key : Lead.t → Scalar)
    (s : Store) :
  (1 ≤ LeadQueryInput.limit q)%Z →
  assoc (LeadQueryInput.sortBy q) leadFields = Some key →
  untied key (prisma_lead.matching (Some (buildWhere q)) s) →
  (∀ l, l ≡ₚ prisma_lead.matching (Some (buildWhere q)) s →
        Sorted (orderedBy key (LeadQueryInput.sortOrder q)) l →
        l = sortedMatching q key s)
  ∧ (∀ n, pagesUpTo q key s n
          = take (n * Z.to_nat (LeadQueryInput.limit q)) (sortedMatching q key s))
  ∧ pagesUpTo q key s
      (Z.to_nat (Pagination.totalPages (PaginatedResponse.pagination (pageOf q key s))))
    = sortedMatching q key s.
Proof.
  intros Hlimit Hkey Huntied.
  split; [intros l; by apply sortedMatching_unique|].
  split; [intros n; by apply pagesUpTo_take|].
  rewrite pagesUpTo_take by done. apply take_ge.
  cbn [pageOf PaginatedResponse.pagination Pagination.totalPages].
  rewrite sortedMatching_length.
  set (total := length (prisma_lead.matching (Some (buildWhere q)) s)).
  pose proof (ceilDiv_spec (Z.of_nat total) (LeadQueryInput.limit q)) as Hceil.
  nia.
Qed.

Lemma pages_cover_the_result_witness :
  pagesUpTo (LeadQueryInput.mk None None None None None "createdAt" desc 1 2)
    (λ r, SDate (Lead.createdAt r)) seeded 2
  = [lead3; lead2; lead1].
Proof.
  pose proof (pages_cover_the_result
                (LeadQueryInput.mk None None None None None "createdAt" desc 1 2)
                (λ r, SDate (Lead.createdAt r)) seeded) as (_ & _ & Hall);
    [simpl; lia|reflexivity|repeat constructor|].
  vm_compute in Hall. exact Hall.
Defined.

(** The data of a page is in the order asked for: each record is followed
    by one whose [sortBy] field is not smaller ([asc]) or not greater
    ([desc]), null sorting lowest; and every record of the page is a lead
    of the collection that passes the filter. *)
Theorem page_ordered_and_filtered (q : LeadQueryInput.t) (key : Lead.t → Scalar)
    (s : Store) :
  Sorted (orderedBy key (LeadQueryInput.sortOrder q))
    (PaginatedResponse.data (pageOf q key s))
  ∧ ∀ r, In r (PaginatedResponse.data (pageOf q key s)) →
         In r s ∧ satisfiesTruthy q r.
Proof.
  cbn [pageOf PaginatedResponse.data]. split.
  - apply Sorted_take, Sorted_drop. unfold sortedMatching.
    apply (Sorted_merge_sort _).
  - intros r Hr%list_elem_of_In.
    apply subseteq_take, subseteq_drop in Hr.
    unfold sortedMatching in Hr. rewrite merge_sort_Permutation in Hr.
    apply list_elem_of_In in Hr. by apply filter_composition_iff.
Qed.

(** * Further properties of the list-query schema *)

Lemma string_spec (v : RawValue) (s : string) : z.string v = inr s ↔ v = RString s.
Proof. destruct v; simpl; split; intros [=]; by subst. Qed.

Lemma enum_spec {A : Type} (values : list A) (name : A → string)
    `{!Inj (=) (=) name} (v : RawValue) (a : A) :
  (∀ a, In a values) →
  z.enum values name v = inr a ↔ v = RString (name a).
Proof.
  intros Hall. destruct v as [s| |]; simpl; [|split; intros [=]..].
  destruct (List.find _ values) as [a'|] eqn:Hfind.
  - apply find_some in Hfind as [_ Hname%String.eqb_eq]. split.
    + intros [= <-]. by rewrite Hname.
    + intros [= ->]. apply (inj name) in Hname. by rewrite Hname.
  - split; [intros [=]|]. intros [= ->].
    pose proof (find_none _ _ Hfind a (Hall a)) as Hname. simpl in Hname.
    by rewrite String.eqb_refl in Hname.
Qed.

Lemma optional_spec {A : Type} (inner : RawValue → z.Parsed A) (spell : A → RawValue)
    (x : option RawValue) (o : option A) :
  (∀ v a, inner v = inr a ↔ v = spell a) →
  z.optional inner x = inr o ↔ x = spell <$> o.
Proof.
  intros Hinner. destruct x as [v|]; simpl.
  - destruct (inner v) as [issues|a] eqn:Hv.
    + split; [intros [=]|]. destruct o as [a|]; intros [=]; subst.
      assert (inner (spell a) = inr a) as Ha by by apply Hinner. congruence.
    + apply Hinner in Hv as ->. split.
      * intros [= <-]. done.
      * destruct o as [a'|]; intros [=]. f_equal. f_equal.
        assert (inner (spell a') = inr a) as Ha by (apply Hinner; congruence).
        assert (inner (spell a') = inr a') as Ha' by by apply Hinner.
        congruence.
  - destruct o; split; intros [=]; done.
Qed.

Lemma default_spec {A : Type} (d : string) (inner : RawValue → z.Parsed A)
    (spell : A → RawValue) (x : option RawValue) (a : A) :
  (∀ v a, inner v = inr a ↔ v = spell a) →
  z.default d inner x = inr a
  ↔ (x = None ∧ RString d = spell a) ∨ x = Some (spell a).
Proof.
  intros Hinner. destruct x as [v|]; simpl; rewrite Hinner.
  - split; [intros ->; by right|]. intros [[[=] _]|[= ->]]. done.
  - split; [by left|]. intros [[_ ?]|[=]]. done.
Qed.

#[export] Instance sortOrderName_inj : Inj (=) (=) sortOrderName.
Proof. intros [] []; simpl; congruence. Qed.

Lemma leadQuerySchema_inr (raw : gmap string RawValue) (q : LeadQueryInput.t) :
  leadQuerySchema raw = inr q
  ↔ z.optional z.string (raw !! "search") = inr (LeadQueryInput.search q)
    ∧ z.optional (z.enum LeadStageEnum stageName) (raw !! "stage")
      = inr (LeadQueryInput.stage q)
    ∧ z.optional (z.enum LeadStatusEnum statusName) (raw !! "status")
      = inr (LeadQueryInput.status q)
    ∧ z.optional z.string (raw !! "source") = inr (LeadQueryInput.source q)
    ∧ z.optional z.string (raw !! "country") = inr (LeadQueryInput.country q)
    ∧ z.default "createdAt" z.string (raw !! "sortBy") = inr (LeadQueryInput.sortBy q)
    ∧ z.default "desc" (z.enum [asc; desc] sortOrderName) (raw !! "sortOrder")
      = inr (LeadQueryInput.sortOrder q)
    ∧ pageSchema (raw !! "page") = inr (LeadQueryInput.page q)
    ∧ limitSchema (raw !! "limit") = inr (LeadQueryInput.limit q).
Proof.
  generalize_fields raw.
  generalize (pageSchema (raw !! "page")).
  generalize (limitSchema (raw !! "limit")).
  intros limit page sortOrder sortBy country source status stage search.
  destruct q as [q1 q2 q3 q4 q5 q6 q7 q8 q9]. simpl. split.
  - destruct search, stage, status, source, country, sortBy, sortOrder, page, limit;
      intros [=]; subst; done.
  - intros (-> & -> & -> & -> & -> & -> & -> & -> & ->). done.
Qed.

(** A raw query validates to a typed query exactly when each of its nine
    keys is missing or spells the typed field: [search], [source] and
    [country] are taken as they are; [stage] and [status] must be one of
    the enum names, letter for letter; a missing [sortBy] is "createdAt"
    and any string is taken; a missing [sortOrder] is [desc] and only
    "asc" and "desc" are taken; [page] and [limit] are as in their own
    schemas. No other key is looked at. *)
Theorem validated_query_fields (raw : gmap string RawValue) (q : LeadQueryInput.t) :
  leadQuerySchema raw = inr q
  ↔ raw !! "search" = RString <$> LeadQueryInput.search q
    ∧ raw !! "stage" = (λ st, RString (stageName st)) <$> LeadQueryInput.stage q
    ∧ raw !! "status" = (λ st, RString (statusName st)) <$> LeadQueryInput.status q
    ∧ raw !! "source" = RString <$> LeadQueryInput.source q
    ∧ raw !! "country" = RString <$> LeadQueryInput.country q
    ∧ ((raw !! "sortBy" = None ∧ LeadQueryInput.sortBy q = "createdAt")
       ∨ raw !! "sortBy" = Some (RString (LeadQueryInput.sortBy q)))
    ∧ ((raw !! "sortOrder" = None ∧ LeadQueryInput.sortOrder q = desc)
       ∨ raw !! "sortOrder"
         = Some (RString (sortOrderName (LeadQueryInput.sortOrder q))))
    ∧ ((raw !! "page" = None ∧ LeadQueryInput.page q = 1%Z)
       ∨ ∃ s, raw !! "page" = Some (RString s)
              ∧ coercesTo s (LeadQueryInput.page q)
              ∧ (1 ≤ LeadQueryInput.page q)%Z)
    ∧ ((raw !! "limit" = None ∧ LeadQueryInput.limit q = 10%Z)
       ∨ ∃ s, raw !! "limit" = Some (RString s)
              ∧ coercesTo s (LeadQueryInput.limit q)
              ∧ (1 ≤ LeadQueryInput.limit q ≤ 100)%Z).
Proof.
  assert (∀ a : LeadStage, In a LeadStageEnum) as Hstages
    by (intros []; simpl; tauto).
  assert (∀ a : LeadStatus, In a LeadStatusEnum) as Hstatuses
    by (intros []; simpl; tauto).
  assert (∀ a : SortOrder, In a [asc; desc]) as Horders
    by (intros []; simpl; tauto).
  rewrite leadQuerySchema_inr, pageSchema_spec, limitSchema_spec.
  rewrite !(optional_spec z.string RString) by apply string_spec.
  rewrite (optional_spec (z.enum LeadStageEnum stageName)
             (λ st, RString (stageName st)))
    by (intros v a; apply (enum_spec _ _ v a Hstages)).
  rewrite (optional_spec (z.enum LeadStatusEnum statusName)
             (λ st, RString (statusName st)))
    by (intros v a; apply (enum_spec _ _ v a Hstatuses)).
  rewrite (default_spec "createdAt" z.string RString) by apply string_spec.
  rewrite (default_spec "desc" (z.enum [asc; desc] sortOrderName)
             (λ o, RString (sortOrderName o)))
    by (intros v a; apply (enum_spec _ _ v a Horders)).
  assert (RString "createdAt" = RString (LeadQueryInput.sortBy q)
          ↔ LeadQueryInput.sortBy q = "createdAt") as ->
    by (split; [intros [= <-]|intros ->]; done).
  assert (RString "desc" = RString (sortOrderName (LeadQueryInput.sortOrder q))
          ↔ LeadQueryInput.sortOrder q = desc) as ->
    by (destruct (LeadQueryInput.sortOrder q); split; intros [=]; done).
  reflexivity.
Qed.

(** * Further properties of the analytics *)

Lemma count_whereStatus (st : LeadStatus) (s : Store) :
  length (List.filter (LeadWhereInput.eval (whereStatus st)) s)
  = countOf Lead.status st s.
Proof.
  unfold countOf. f_equal. apply filter_ext. intros r.
  unfold LeadWhereInput.eval, whereStatus. simpl. by rewrite !andb_true_r.
Qed.

Lemma countOf_two {K : Type} `{EqDecision K} (key : Lead.t → K) (a b : K)
    (l : list Lead.t) :
  a ≠ b → countOf key a l + countOf key b l ≤ length l.
Proof.
  intros Hab. unfold countOf. induction l as [|r l IH]; simpl; [done|].
  destruct (decide (key r = a)) as [Ha|Ha], (decide (key r = b)) as [Hb|Hb];
    rewrite ?(bool_decide_eq_true_2 _ Ha), ?(bool_decide_eq_false_2 _ Ha),
      ?(bool_decide_eq_true_2 _ Hb), ?(bool_decide_eq_false_2 _ Hb);
    simpl; [congruence|lia..].
Qed.

Lemma reduceCounts_default {K : Type} `{EqDecision K} (name : K → string)
    `{!Inj (=) (=) name} (key : Lead.t → K) (l : list Lead.t) (k : K) :
  from_option id 0 (reduceCounts name (groups key l) !! name k) = countOf key k l.
Proof.
  destruct (reduceCounts_groups name key l) as [_ Hlookup].
  destruct (reduceCounts name (groups key l) !! name k) as [n|] eqn:Hk; simpl.
  - by apply Hlookup in Hk as [_ ->].
  - destruct (countOf key k l) as [|n] eqn:Hn; [done|].
    assert (reduceCounts name (groups key l) !! name k = Some (S n)) as Hsome
      by (apply Hlookup; lia).
    congruence.
Qed.

(** The counts of the analytics agree with one another: [convertedLeads]
    and [activeLeads] are the numbers of leads of status CONVERTED and
    ACTIVE, they are the counts filed under these keys in [leadsByStatus]
    (0 for a missing key), and together they do not exceed [totalLeads]. *)
Theorem analytics_status_counts (s : Store) :
  ∃ a : AnalyticsData.t,
    GET_leads_analytics s = (resolved (json 200 a), s)
    ∧ AnalyticsData.convertedLeads a = countOf Lead.status CONVERTED s
    ∧ AnalyticsData.activeLeads a = countOf Lead.status ACTIVE s
    ∧ AnalyticsData.convertedLeads a
      = from_option id 0 (AnalyticsData.leadsByStatus a !! "CONVERTED")
    ∧ AnalyticsData.activeLeads a
      = from_option id 0 (AnalyticsData.leadsByStatus a !! "ACTIVE")
    ∧ AnalyticsData.convertedLeads a + AnalyticsData.activeLeads a
      ≤ AnalyticsData.totalLeads a.
Proof.
  exists (analyticsOf s). unfold GET_leads_analytics. rewrite getAnalytics_run.
  split; [reflexivity|].
  cbn [analyticsOf AnalyticsData.convertedLeads AnalyticsData.activeLeads
       AnalyticsData.leadsByStatus AnalyticsData.totalLeads].
  rewrite !count_whereStatus.
  change "CONVERTED" with (statusName CONVERTED).
  change "ACTIVE" with (statusName ACTIVE).
  rewrite !(reduceCounts_default statusName).
  repeat split. by apply countOf_two.
Qed.

Lemma reduceCounts_keys {K : Type} (name : K → string) (gs : list (Group K))
    (acc : gmap string nat) (key : string) (n : nat) :
  foldl (λ acc item, <[name (by_ item) := _count item]> acc) acc gs !! key = Some n →
  acc !! key = Some n ∨ ∃ g, g ∈ gs ∧ key = name (by_ g).
Proof.
  revert acc. induction gs as [|g gs IH]; intros acc; csimpl; [auto|].
  intros [Hacc|(g' & Hg' & ->)]%IH.
  - destruct (decide (name (by_ g) = key)) as [<-|Hne].
    + right. exists g. split; [apply list_elem_of_here|done].
    + rewrite lookup_insert_ne in Hacc by done. auto.
  - right. exists g'. split; [by apply list_elem_of_further|done].
Qed.

(** The [leadsByStage] mapping files every lead under the name of its
    stage: its counts add up to [totalLeads], the count under a stage name
    is the number of leads in that stage, a stage without leads has no key,
    and there is no key but the names of stages. *)
Theorem leadsByStage_counts (s : Store) :
  ∃ a : AnalyticsData.t,
    GET_leads_analytics s = (resolved (json 200 a), s)
    ∧ sumCounts (AnalyticsData.leadsByStage a) = AnalyticsData.totalLeads a
    ∧ (∀ stage, from_option id 0 (AnalyticsData.leadsByStage a !! stageName stage)
                = countOf Lead.stage stage s)
    ∧ (∀ stage, AnalyticsData.leadsByStage a !! stageName stage = None
                ↔ countOf Lead.stage stage s = 0)
    ∧ (∀ key, is_Some (AnalyticsData.leadsByStage a !! key) →
              ∃ stage, key = stageName stage).
Proof.
  exists (analyticsOf s). unfold GET_leads_analytics. rewrite getAnalytics_run.
  split; [reflexivity|].
  cbn [analyticsOf AnalyticsData.leadsByStage AnalyticsData.totalLeads].
  destruct (reduceCounts_groups stageName Lead.stage s) as [Hsum Hlookup].
  split; [exact Hsum|]. split; [intros stage; apply (reduceCounts_default stageName)|].
  split.
  - intros stage. rewrite <- (reduceCounts_default stageName Lead.stage s stage).
    destruct (reduceCounts stageName (groups Lead.stage s) !! stageName stage)
      as [n|] eqn:Hn; simpl; [|done].
    apply Hlookup in Hn. split; [done|lia].
  - intros key [n Hn]. unfold reduceCounts in Hn.
    apply reduceCounts_keys in Hn as [Hempty|(g & _ & ->)]; [|eauto].
    by rewrite lookup_empty in Hempty.
Qed.

Lemma sum_list_take_le (n : nat) (l : list nat) : sum_list (take n l) ≤ sum_list l.
Proof.
  revert n. induction l as [|x l IH]; intros [|n]; simpl; try lia.
  specialize (IH n). lia.
Qed.

(** The counts of [leadsBySource] add up to at most [totalLeads], and to
    [totalLeads] itself when fewer than 10 sources are listed: the list is
    then not cut, and every lead is counted under its source. *)
Theorem leadsBySource_sum (s : Store) :
  ∃ a : AnalyticsData.t,
    GET_leads_analytics s = (resolved (json 200 a), s)
    ∧ sum_list (SourceCount.count <$> AnalyticsData.leadsBySource a)
      ≤ AnalyticsData.totalLeads a
    ∧ (length (AnalyticsData.leadsBySource a) < 10 →
       sum_list (SourceCount.count <$> AnalyticsData.leadsBySource a)
       = AnalyticsData.totalLeads a).
Proof.
  exists (analyticsOf s). unfold GET_leads_analytics. rewrite getAnalytics_run.
  split; [reflexivity|].
  cbn [analyticsOf AnalyticsData.leadsBySource AnalyticsData.totalLeads].
  destruct (groups_facts Lead.source s) as (_ & _ & Hsum & _).
  set (sorted := merge_sort countDesc (groups Lead.source s)).
  assert (sum_list (_count <$> sorted) = length s) as Hsorted.
  { subst sorted. by rewrite merge_sort_Permutation. }
  rewrite <- list_fmap_compose, length_fmap.
  change (SourceCount.count ∘ _) with (@_count string).
  rewrite fmap_take. split.
  - rewrite <- Hsorted. apply sum_list_take_le.
  - intros Hshort. rewrite length_take in Hshort.
    rewrite take_ge; [done|]. rewrite length_fmap. lia.
Qed.

(** * Further properties of the single-record lookup *)

Lemma nat_of_toLowerAscii (c : ascii) :
  nat_of_ascii (toLowerAscii c)
  = if (65 <=? nat_of_ascii c) && (nat_of_ascii c <=? 90)
    then nat_of_ascii c + 32 else nat_of_ascii c.
Proof.
  unfold toLowerAscii. pose proof (nat_of_ascii_lt c) as Hc.
  destruct ((65 <=? nat_of_ascii c) && (nat_of_ascii c <=? 90)) eqn:Hupper; [|done].
  apply andb_true_iff in Hupper as [_ H2%Nat.leb_le].
  apply nat_ascii_embedding. lia.
Qed.

Lemma hexDigit_toLowerAscii (c : ascii) : JS.hexDigit (toLowerAscii c) = JS.hexDigit c.
Proof. destruct c as [[] [] [] [] [] [] [] []]; vm_compute; reflexivity. Qed.

Lemma hexClass_toLowerAscii (c : ascii) : hexClass (toLowerAscii c) = hexClass c.
Proof.
  apply eq_true_iff_eq. rewrite !hexClass_spec. unfold hexadecimal.
  rewrite nat_of_toLowerAscii.
  destruct (Nat.leb_spec 65 (nat_of_ascii c)), (Nat.leb_spec (nat_of_ascii c) 90);
    cbn [andb]; lia.
Qed.

Lemma repeatClass_toLowerCase (n : nat) (s : string) :
  repeatClass hexClass n (toLowerCase s) = toLowerCase <$> repeatClass hexClass n s.
Proof.
  revert s. induction n as [|n IH]; intros s; simpl; [done|].
  destruct s as [|c s]; simpl; [done|].
  rewrite hexClass_toLowerAscii. destruct (hexClass c); [apply IH|done].
Qed.

Lemma objectIdRegex_toLowerCase (id : string) :
  objectIdRegex (toLowerCase id) = objectIdRegex id.
Proof.
  unfold objectIdRegex. rewrite repeatClass_toLowerCase.
  destruct (repeatClass hexClass 24 id) as [[|]|]; done.
Qed.

Lemma readDigits_toLowerAscii (cs : list ascii) (acc : Z) (n : nat) :
  JS.readDigits JS.hexDigit 16 (toLowerAscii <$> cs) acc n
  = (let '(v, k, rest) := JS.readDigits JS.hexDigit 16 cs acc n in
     (v, k, toLowerAscii <$> rest)).
Proof.
  revert acc n. induction cs as [|c cs IH]; intros acc n; csimpl; [done|].
  rewrite hexDigit_toLowerAscii. destruct (JS.hexDigit c); [apply IH|done].
Qed.

Lemma list_ascii_of_toLowerCase (s : string) :
  list_ascii_of_string (toLowerCase s) = toLowerAscii <$> list_ascii_of_string s.
Proof. induction s; csimpl; congruence. Qed.

Lemma parseObjectId_toLowerCase (id : string) :
  parseObjectId (toLowerCase id) = parseObjectId id.
Proof.
  unfold parseObjectId.
  rewrite list_ascii_of_toLowerCase, readDigits_toLowerAscii.
  destruct (JS.readDigits JS.hexDigit 16 (list_ascii_of_string id) 0 0)
    as [[v k] [|c rest]]; done.
Qed.

(** Two ids that differ only in the case of their letters get the same
    answer from the single-record lookup: both are refused, or both name
    the same ObjectId. *)
Theorem lookup_ignores_letter_case (id id' : string) (s : Store) :
  toLowerCase id = toLowerCase id' →
  GET_leads_id id s = GET_leads_id id' s.
Proof.
  intros Hcase. rewrite !GET_leads_id_run.
  rewrite <- (objectIdRegex_toLowerCase id), <- (objectIdRegex_toLowerCase id').
  rewrite <- (parseObjectId_toLowerCase id), <- (parseObjectId_toLowerCase id').
  by rewrite Hcase.
Qed.

Lemma lookup_ignores_letter_case_witness :
  GET_leads_id "00000000000000000000000A" seeded
  = GET_leads_id "00000000000000000000000a" seeded.
Proof. apply lookup_ignores_letter_case. reflexivity. Defined.

(** * The seeding script's helpers *)

Lemma roundHalfEven_bounds (y : Q) :
  (0 <= y)%Q →
  (0 ≤ JS.roundHalfEven y)%Z ∧ (inject_Z (JS.roundHalfEven y) <= y + (1 # 2))%Q.
Proof.
  intros Hy. unfold JS.roundHalfEven.
  pose proof (Qfloor_le y) as Hfloor.
  assert (0 ≤ Qfloor y)%Z as Hpos.
  { rewrite <- (Qfloor_Z 0). by apply Qfloor_resp_le. }
  assert (inject_Z (Qfloor y + 1) == inject_Z (Qfloor y) + 1)%Q as Hnext
    by by rewrite inject_Z_plus.
  destruct (Qcompare (y - inject_Z (Qfloor y)) (1 # 2)) eqn:Hcmp.
  - apply Qeq_alt in Hcmp. destruct (Z.even (Qfloor y)).
    + split; [lia|]. lra.
    + split; [lia|]. rewrite Hnext. lra.
  - split; [lia|]. lra.
  - apply Qgt_alt in Hcmp. split; [lia|]. rewrite Hnext. lra.
Qed.

Lemma two_power_pos (e : Z) : (0 < Qpower 2 e)%Q.
Proof. by apply Qpower_0_lt. Qed.

Lemma ilog2_le (x : Q) : (0 < x)%Q → (Qpower 2 (JS.ilog2 x) <= x)%Q.
Proof.
  intros Hx. unfold JS.ilog2.
  set (e := (Z.log2 (Qnum x) - Z.log2 (Z.pos (Qden x)))%Z).
  destruct (Qle_bool (Qpower 2 e) x) eqn:Hle; [by apply Qle_bool_iff|].
  destruct x as [n d]. cbn [Qnum Qden] in e.
  assert (0 < n)%Z as Hn by (unfold Qlt in Hx; simpl in Hx; lia).
  pose proof (Z.log2_spec n Hn) as [Hlow _].
  pose proof (Z.log2_spec (Z.pos d) (Pos2Z.is_pos d)) as [_ Hhigh].
  pose proof (Z.log2_nonneg n) as Hln.
  pose proof (Z.log2_nonneg (Z.pos d)) as Hld.
  replace (e - 1)%Z with (Z.log2 n - Z.succ (Z.log2 (Z.pos d)))%Z by (subst e; lia).
  rewrite Qpower_minus by done.
  rewrite <- !(Zpower_Qpower 2) by lia.
  rewrite (Qmake_Qdiv n d).
  assert (0 < inject_Z (2 ^ Z.succ (Z.log2 (Z.pos d))))%Q as Hpow.
  { change 0%Q with (inject_Z 0). rewrite <- Zlt_Qlt. lia. }
  assert (0 < inject_Z (Z.pos d))%Q as Hd.
  { change 0%Q with (inject_Z 0). by rewrite <- Zlt_Qlt. }
  apply Qle_shift_div_r; [exact Hpow|].
  unfold Qdiv. rewrite <- Qmult_assoc, (Qmult_comm (/ _)), Qmult_assoc.
  apply Qle_shift_div_l; [exact Hd|].
  rewrite <- !inject_Z_mult, <- Zle_Qle. nia.
Qed.

Lemma Qabs_nonneg_eq (x : Q) : (0 <= x)%Q → Qabs x = x.
Proof.
  destruct x as [n d]. unfold Qle. simpl. intros Hn.
  unfold Qabs. f_equal. apply Z.abs_eq. lia.
Qed.

(** The product of a random double with a bound [b] rounds to a double
    that is still below [b]. *)
Lemma roundDouble_below (x b : Q) :
  (0 <= x)%Q → (x <= b * (1 - (1 # 9007199254740992)))%Q →
  (1 <= b)%Q → (b <= Qpower 2 1024)%Q →
  ∃ v, JS.roundDouble x = JS.Finite v ∧ (0 <= v)%Q ∧ (v < b)%Q.
Proof.
  intros Hx Hxb Hb Hmax. unfold JS.roundDouble.
  destruct (Qeq_bool x 0) eqn:Hzero.
  { exists 0%Q. split; [done|]. split; lra. }
  apply Qeq_bool_neq in Hzero.
  assert (0 < x)%Q as Hpos.
  { apply Qle_lteq in Hx as [?|Heq]; [done|]. by destruct Hzero. }
  rewrite (Qabs_nonneg_eq x Hx).
  set (p := Z.max (JS.ilog2 x - 52) (-1074)).
  pose proof (two_power_pos p) as HP.
  assert (Qpower 2 p * 4503599627370496 < b)%Q as Hulp.
  { assert (4503599627370496 == Qpower 2 52)%Q as -> by reflexivity.
    rewrite <- Qpower_plus by done.
    destruct (Z.max_spec (JS.ilog2 x - 52) (-1074)) as [[_ Hp]|[_ Hp]];
      fold p in Hp; rewrite Hp.
    - apply Qlt_le_trans with 1%Q; [|done].
      change 1%Q with (Qpower 2 0). by apply Qpower_lt_compat_l.
    - replace (JS.ilog2 x - 52 + 52)%Z with (JS.ilog2 x) by lia.
      apply Qle_lt_trans with x; [by apply ilog2_le|]. lra. }
  set (P := Qpower 2 p) in *.
  assert (0 <= x / P)%Q as Hy.
  { apply Qle_shift_div_l; [done|]. lra. }
  destruct (roundHalfEven_bounds (x / P) Hy) as [Hm0 Hm].
  set (m := JS.roundHalfEven (x / P)) in *.
  assert (inject_Z m * P <= x + P * (1 # 2))%Q as Hv.
  { apply (Qmult_le_compat_r _ _ P) in Hm; [|lra].
    assert ((x / P + (1 # 2)) * P == x + P * (1 # 2))%Q as Heq
      by (field; lra).
    by rewrite Heq in Hm. }
  assert (0 <= inject_Z m * P)%Q as Hv0.
  { apply Qmult_le_0_compat; [|lra].
    change 0%Q with (inject_Z 0). by rewrite <- Zle_Qle. }
  assert (inject_Z m * P < b)%Q as Hvb by lra.
  assert (Qle_bool (Qpower 2 1024) (inject_Z m * P) = false) as ->.
  { destruct (Qle_bool _ _) eqn:Hle; [|done].
    apply Qle_bool_iff in Hle. lra. }
  assert (Qle_bool 0 x = true) as -> by by apply Qle_bool_iff.
  eexists. split; [reflexivity|]. rewrite Qred_correct. done.
Qed.

Lemma random_scale (random : Q) (k : Z) :
  isRandom random → (1 ≤ k ≤ 9007199254740992)%Z →
  ∃ v, JS.roundDouble (random * inject_Z k) = JS.Finite v
       ∧ (0 ≤ Qfloor v < k)%Z.
Proof.
  intros [Hlow Hhigh] [Hk1 Hk2].
  assert (1 <= inject_Z k)%Q as HkQ.
  { change 1%Q with (inject_Z 1). by rewrite <- Zle_Qle. }
  destruct (roundDouble_below (random * inject_Z k) (inject_Z k))
    as (v & Hv & Hv0 & Hvk).
  - apply Qmult_le_0_compat; lra.
  - rewrite (Qmult_comm (inject_Z k)). apply Qmult_le_compat_r; lra.
  - exact HkQ.
  - apply Qle_trans with (Qpower 2 53).
    + assert (Qpower 2 53 == inject_Z 9007199254740992)%Q as -> by reflexivity.
      by rewrite <- Zle_Qle.
    + by apply Qpower_le_compat_l.
  - exists v. split; [exact Hv|]. split.
    + rewrite <- (Qfloor_Z 0). by apply Qfloor_resp_le.
    + rewrite Zlt_Qlt. apply Qle_lt_trans with v; [apply Qfloor_le|done].
Qed.

(** [getRandomNumber(min, max)] is an integer from [min] to [max], both
    included, whatever [Math.random()] returns, for [min <= max] less than
    2^53 apart. *)
Theorem getRandomNumber_in_range (random : Q) (min max : Z) :
  isRandom random → (min ≤ max)%Z → (max - min < 9007199254740992)%Z →
  ∃ n : Z, getRandomNumber random min max = JS.Finite (inject_Z n)
           ∧ (min ≤ n ≤ max)%Z.
Proof.
  intros Hrandom Hle Hsafe. unfold getRandomNumber.
  destruct (random_scale random (max - min + 1) Hrandom) as (v & -> & Hv); [lia|].
  exists (Qfloor v + min)%Z. split; [done|lia].
Qed.

Lemma half_isRandom : isRandom (1 # 2).
Proof. split; unfold Qle; simpl; lia. Qed.

Lemma getRandomNumber_in_range_witness :
  ∃ n : Z, getRandomNumber (1 # 2) 1 999 = JS.Finite (inject_Z n)
           ∧ (1 ≤ n ≤ 999)%Z.
Proof.
  apply getRandomNumber_in_range; [exact half_isRandom|lia|lia].
Defined.

Lemma getRandomItem_lookup {T : Type} (random : Q) (array : list T) :
  isRandom random → (Z.of_nat (length array) < 4294967296)%Z →
  (array = [] → getRandomItem random array = None)
  ∧ (array ≠ [] →
     ∃ (i : nat) (x : T),
       i < length array ∧ array !! i = Some x
       ∧ getRandomItem random array = Some x).
Proof.
  intros Hrandom Hlen. split.
  - intros ->. unfold getRandomItem. cbn [length]. change (Z.of_nat 0) with 0%Z.
    assert (JS.roundDouble (random * inject_Z 0) = JS.Finite 0) as ->; [|done].
    unfold JS.roundDouble.
    assert (Qeq_bool (random * inject_Z 0) 0 = true) as ->; [|done].
    apply Qeq_bool_iff. change (inject_Z 0) with 0%Q. ring.
  - intros Hne. unfold getRandomItem.
    destruct (random_scale random (Z.of_nat (length array)) Hrandom)
      as (v & -> & Hv).
    { destruct array; [done|]. simpl in *. lia. }
    destruct (Z.ltb_spec (Qfloor v) 0) as [?|_]; [lia|].
    assert (Z.to_nat (Qfloor v) < length array) as Hi by lia.
    destruct (lookup_lt_is_Some_2 array _ Hi) as [x Hx].
    exists (Z.to_nat (Qfloor v)), x. done.
Qed.

(** [getRandomItem(array)] is an element of the array, at an index within
    it, whatever [Math.random()] returns; of an empty array it is
    [undefined]. *)
Theorem getRandomItem_in_array {T : Type} (random : Q) (array : list T) :
  isRandom random → (Z.of_nat (length array) < 4294967296)%Z →
  (array = [] → getRandomItem random array = None)
  ∧ (array ≠ [] →
     ∃ (i : nat) (x : T),
       i < length array ∧ array !! i = Some x
       ∧ getRandomItem random array = Some x).
Proof. apply getRandomItem_lookup. Qed.

Lemma getRandomItem_in_array_witness :
  ∃ (i : nat) (x : LeadStatus),
    i < 4 ∧ [ACTIVE; ACTIVE; ACTIVE; INACTIVE] !! i = Some x
    ∧ getRandomItem (1 # 2) [ACTIVE; ACTIVE; ACTIVE; INACTIVE] = Some x.
Proof.
  apply (getRandomItem_in_array (1 # 2) [ACTIVE; ACTIVE; ACTIVE; INACTIVE]);
    [exact half_isRandom|simpl; lia|done].
Defined.

Example getRandomNumber_half : getRandomNumber (1 # 2) 1 999 = JS.Finite 500.
Proof. vm_compute. reflexivity. Qed.

Example getRandomNumber_top :
  getRandomNumber (9007199254740991 # 9007199254740992) 200 999 = JS.Finite 999.
Proof. vm_compute. reflexivity. Qed.

Example getRandomItem_half :
  getRandomItem (1 # 2) [ACTIVE; ACTIVE; ACTIVE; INACTIVE] = Some ACTIVE.
Proof. vm_compute. reflexivity. Qed.

Lemma roundHalfEven_le (y : Q) (n : Z) :
  (y <= inject_Z n)%Q → (JS.roundHalfEven y ≤ n)%Z.
Proof.
  intros Hy. unfold JS.roundHalfEven.
  pose proof (Qfloor_le y) as Hfloor.
  assert (Qfloor y ≤ n)%Z as Hle.
  { rewrite <- (Qfloor_Z n). by apply Qfloor_resp_le. }
  destruct (Z.eq_dec (Qfloor y) n) as [Heq|Hne].
  - assert (Qcompare (y - inject_Z (Qfloor y)) (1 # 2) = Lt) as ->; [|lia].
    apply (proj1 (Qlt_alt _ _)). subst n. lra.
  - destruct (Qcompare _ _); [destruct (Z.even _)|..]; lia.
Qed.

Lemma roundHalfEven_ge (y : Q) (n : Z) :
  (inject_Z n <= y)%Q → (n ≤ JS.roundHalfEven y)%Z.
Proof.
  intros Hy. unfold JS.roundHalfEven.
  assert (n ≤ Qfloor y)%Z as Hle.
  { rewrite <- (Qfloor_Z n). by apply Qfloor_resp_le. }
  destruct (Qcompare _ _); [destruct (Z.even _)|..]; lia.
Qed.

(** Rounding to a double does not cross an integer below 2^53. *)
Lemma roundDouble_between (x : Q) (lo hi : Z) :
  (0 ≤ lo)%Z → (hi < 9007199254740992)%Z →
  (inject_Z lo <= x)%Q → (x <= inject_Z hi)%Q →
  ∃ v, JS.roundDouble x = JS.Finite v
       ∧ (inject_Z lo <= v)%Q ∧ (v <= inject_Z hi)%Q.
Proof.
  intros Hlo Hhi Hlox Hxhi. unfold JS.roundDouble.
  assert (0 <= inject_Z lo)%Q as HloQ.
  { change 0%Q with (inject_Z 0). by rewrite <- Zle_Qle. }
  destruct (Qeq_bool x 0) eqn:Hzero.
  { apply Qeq_bool_iff in Hzero. exists 0%Q. split; [done|]. split; lra. }
  apply Qeq_bool_neq in Hzero.
  assert (0 <= x)%Q as Hx by lra.
  assert (0 < x)%Q as Hpos.
  { apply Qle_lteq in Hx as [?|Heq]; [done|]. by destruct Hzero. }
  rewrite (Qabs_nonneg_eq x Hx).
  assert (JS.ilog2 x < 53)%Z as He.
  { apply (Qpower_lt_compat_l_inv 2); [|done].
    apply Qle_lt_trans with x; [by apply ilog2_le|].
    apply Qle_lt_trans with (inject_Z hi); [done|].
    assert (Qpower 2 53 == inject_Z 9007199254740992)%Q as -> by reflexivity.
    by rewrite <- Zlt_Qlt. }
  set (p := Z.max (JS.ilog2 x - 52) (-1074)).
  assert (p ≤ 0)%Z as Hp by lia.
  pose proof (two_power_pos p) as HP.
  assert (/ Qpower 2 p == inject_Z (2 ^ (- p)))%Q as Hinv.
  { rewrite Zpower_Qpower by lia. by rewrite Qpower_opp. }
  assert (0 < 2 ^ (- p))%Z as Hscale by (apply Z.pow_pos_nonneg; lia).
  set (P := Qpower 2 p) in *. set (c := (2 ^ (- p))%Z) in *.
  assert (0 < inject_Z c)%Q as Hc.
  { change 0%Q with (inject_Z 0). by rewrite <- Zlt_Qlt. }
  assert (inject_Z c * P == 1)%Q as HcP.
  { rewrite <- Hinv. field. lra. }
  assert (x / P == x * inject_Z c)%Q as Hy by (unfold Qdiv; by rewrite Hinv).
  assert (JS.roundHalfEven (x / P) ≤ hi * c)%Z as Hmhi.
  { apply roundHalfEven_le. rewrite Hy, inject_Z_mult.
    apply Qmult_le_compat_r; lra. }
  assert (lo * c ≤ JS.roundHalfEven (x / P))%Z as Hmlo.
  { apply roundHalfEven_ge. rewrite Hy, inject_Z_mult.
    apply Qmult_le_compat_r; lra. }
  set (m := JS.roundHalfEven (x / P)) in *.
  assert (inject_Z m * P <= inject_Z hi)%Q as Hvhi.
  { rewrite Zle_Qle, inject_Z_mult in Hmhi.
    apply (Qmult_le_compat_r _ _ P) in Hmhi; [|lra].
    rewrite <- Qmult_assoc, HcP, Qmult_1_r in Hmhi. done. }
  assert (inject_Z lo <= inject_Z m * P)%Q as Hvlo.
  { rewrite Zle_Qle, inject_Z_mult in Hmlo.
    apply (Qmult_le_compat_r _ _ P) in Hmlo; [|lra].
    rewrite <- Qmult_assoc, HcP, Qmult_1_r in Hmlo. done. }
  assert (Qle_bool (Qpower 2 1024) (inject_Z m * P) = false) as ->.
  { destruct (Qle_bool _ _) eqn:Hle; [|done].
    apply Qle_bool_iff in Hle.
    assert (Qpower 2 53 <= Qpower 2 1024)%Q as Hbig
      by by apply Qpower_le_compat_l.
    assert (inject_Z hi < Qpower 2 53)%Q as Hsmall.
    { assert (Qpower 2 53 == inject_Z 9007199254740992)%Q as -> by reflexivity.
      by rewrite <- Zlt_Qlt. }
    lra. }
  assert (Qle_bool 0 x = true) as -> by by apply Qle_bool_iff.
  eexists. split; [reflexivity|]. rewrite Qred_correct. done.
Qed.

Lemma random_offset (random span : Q) (k : Z) :
  isRandom random → (0 ≤ k ≤ 9007199254740992)%Z → (span == inject_Z k)%Q →
  ∃ v, JS.roundDouble (random * span) = JS.Finite v
       ∧ (0 <= v)%Q ∧ (v <= inject_Z k)%Q.
Proof.
  intros Hrandom [Hk0 Hk] Hspan. destruct (Z.eq_dec k 0%Z) as [->|Hne].
  - exists 0%Q. split; [|split; change (inject_Z 0) with 0%Q; lra].
    unfold JS.roundDouble.
    assert (Qeq_bool (random * span) 0 = true) as ->; [|done].
    apply Qeq_bool_iff. rewrite Hspan. change (inject_Z 0) with 0%Q. ring.
  - destruct Hrandom as [Hlow Hhigh].
    assert (1 <= inject_Z k)%Q as HkQ.
    { change 1%Q with (inject_Z 1). rewrite <- Zle_Qle. lia. }
    destruct (roundDouble_below (random * span) (inject_Z k))
      as (v & Hv & Hv0 & Hvk).
    + rewrite Hspan. apply Qmult_le_0_compat; lra.
    + rewrite Hspan, (Qmult_comm (inject_Z k)). apply Qmult_le_compat_r; lra.
    + exact HkQ.
    + apply Qle_trans with (Qpower 2 53).
      * assert (Qpower 2 53 == inject_Z 9007199254740992)%Q as -> by reflexivity.
        by rewrite <- Zle_Qle.
      * by apply Qpower_le_compat_l.
    + exists v. split; [done|]. split; lra.
Qed.

(** [getRandomDate(start, end)] is a valid date from [start] to [end],
    both included, whatever [Math.random()] returns, for valid dates of
    the epoch on ([0 <= start <= end], and [end] at most the largest time
    value, as that of every valid date is). *)
Theorem getRandomDate_between (random : Q) (start end_ : Z) :
  isRandom random → (0 ≤ start ≤ end_)%Z → (end_ ≤ maxTime)%Z →
  ∃ t : Z, getRandomDate random start end_ = Some t ∧ (start ≤ t ≤ end_)%Z.
Proof.
  intros Hrandom [Hstart Hle] Hend. unfold maxTime in Hend. unfold getRandomDate.
  destruct (roundDouble_between (inject_Z (end_ - start)) (end_ - start) (end_ - start))
    as (span & -> & Hspan1 & Hspan2); [lia|lia|apply Qle_refl..|].
  assert (span == inject_Z (end_ - start))%Q as Hspan by by apply Qle_antisym.
  destruct (random_offset random span (end_ - start) Hrandom)
    as (offset & -> & Hoff0 & Hoff); [lia|done|].
  destruct (roundDouble_between (inject_Z start + offset) start end_)
    as (t & -> & Ht0 & Ht); [done|lia|lra| |].
  { unfold Z.sub in Hoff. rewrite inject_Z_plus, inject_Z_opp in Hoff. lra. }
  assert (0 <= inject_Z start)%Q as HstartQ.
  { change 0%Q with (inject_Z 0). by rewrite <- Zle_Qle. }
  assert (inject_Z end_ <= inject_Z maxTime)%Q as HendQ by by rewrite <- Zle_Qle.
  unfold timeClip.
  assert (Qle_bool (Qabs t) (inject_Z maxTime) = true) as ->.
  { apply Qle_bool_iff. rewrite Qabs_pos by lra. lra. }
  assert (Qle_bool 0 t = true) as -> by (apply Qle_bool_iff; lra).
  exists (Qfloor t). split; [done|]. split.
  - rewrite <- (Qfloor_Z start). by apply Qfloor_resp_le.
  - rewrite <- (Qfloor_Z end_). by apply Qfloor_resp_le.
Qed.

Lemma getRandomDate_between_witness :
  ∃ t : Z, getRandomDate (1 # 2) 1672531200000 1700000000000 = Some t
           ∧ (1672531200000 ≤ t ≤ 1700000000000)%Z.
Proof.
  apply getRandomDate_between; [exact half_isRandom|lia|unfold maxTime; lia].
Defined.

Example getRandomDate_half :
  getRandomDate (1 # 2) 1672531200000 1700000000000 = Some 1686265600000%Z.
Proof. vm_compute. reflexivity. Qed.

(** Beyond the largest time value there is no date to return. *)
Example getRandomDate_out_of_range :
  getRandomDate (1 # 2) 8700000000000000 8700000000000000 = None.
Proof. vm_compute. reflexivity. Qed.

(** The seeding loop gives every lead a status, whatever [Math.random()]
    returns: CONVERTED exactly for the stage CLOSED_WON, REJECTED exactly
    for CLOSED_LOST, and ACTIVE or INACTIVE for every other stage. *)
Theorem seedStatus_correlated (stage : LeadStage) (random : Q) :
  isRandom random →
  ∃ status : LeadStatus,
    seedStatus stage random = Some status
    ∧ (status = CONVERTED ↔ stage = CLOSED_WON)
    ∧ (status = REJECTED ↔ stage = CLOSED_LOST)
    ∧ (stage ≠ CLOSED_WON → stage ≠ CLOSED_LOST →
       status = ACTIVE ∨ status = INACTIVE).
Proof.
  intros Hrandom. unfold seedStatus.
  destruct (decide (stage = CLOSED_WON)) as [->|Hwon].
  { exists CONVERTED. repeat split; done. }
  destruct (decide (stage = CLOSED_LOST)) as [->|Hlost].
  { exists REJECTED. repeat split; done. }
  destruct (getRandomItem_lookup random [ACTIVE; ACTIVE; ACTIVE; INACTIVE] Hrandom)
    as [_ Hitem]; [simpl; lia|].
  destruct Hitem as (i & status & Hi & Hlookup & ->); [done|].
  exists status. split; [done|].
  destruct i as [|[|[|[|i]]]]; simpl in Hlookup, Hi; try lia;
    injection Hlookup as <-; repeat split; try done; auto.
Qed.

Lemma seedStatus_correlated_witness :
  ∃ status : LeadStatus,
    seedStatus NEW (1 # 2) = Some status
    ∧ (status = CONVERTED ↔ NEW = CLOSED_WON)
    ∧ (status = REJECTED ↔ NEW = CLOSED_LOST)
    ∧ (NEW ≠ CLOSED_WON → NEW ≠ CLOSED_LOST →
       status = ACTIVE ∨ status = INACTIVE).
Proof. apply seedStatus_correlated. exact half_isRandom. Defined.

Lemma countOf_agree {K K' : Type} `{EqDecision K} `{EqDecision K'}
    (key : Lead.t → K) (key' : Lead.t → K') (k : K) (k' : K') (l : list Lead.t) :
  Forall (λ r, key r = k ↔ key' r = k') l → countOf key k l = countOf key' k' l.
Proof.
  unfold countOf. induction 1 as [|r l Hr _ IH]; simpl; [done|].
  rewrite (bool_decide_ext _ _ Hr). destruct (bool_decide _); simpl; lia.
Qed.

(** Over a collection that keeps the convention of the seeding script's
    status expression (a lead is CONVERTED exactly when CLOSED_WON and
    REJECTED exactly when CLOSED_LOST), the analytics agree across the two
    groupings:
    [convertedLeads] is the count of the stage CLOSED_WON in
    [leadsByStage], and the count of REJECTED in [leadsByStatus] is the
    count of CLOSED_LOST in [leadsByStage]. *)
Theorem analytics_of_seeded (s : Store) :
  Forall seedCorrelated s →
  ∃ a : AnalyticsData.t,
    GET_leads_analytics s = (resolved (json 200 a), s)
    ∧ AnalyticsData.convertedLeads a
      = from_option id 0 (AnalyticsData.leadsByStage a !! "CLOSED_WON")
    ∧ from_option id 0 (AnalyticsData.leadsByStatus a !! "REJECTED")
      = from_option id 0 (AnalyticsData.leadsByStage a !! "CLOSED_LOST").
Proof.
  intros Hseed. exists (analyticsOf s).
  unfold GET_leads_analytics. rewrite getAnalytics_run. split; [reflexivity|].
  cbn [analyticsOf AnalyticsData.convertedLeads AnalyticsData.leadsByStatus
       AnalyticsData.leadsByStage].
  rewrite count_whereStatus.
  change "CLOSED_WON" with (stageName CLOSED_WON).
  change "CLOSED_LOST" with (stageName CLOSED_LOST).
  change "REJECTED" with (statusName REJECTED).
  rewrite !(reduceCounts_default stageName), (reduceCounts_default statusName).
  split; apply countOf_agree; eapply Forall_impl; try exact Hseed;
    intros r [Hwon Hlost]; done.
Qed.

Lemma analytics_of_seeded_witness :
  ∃ a : AnalyticsData.t,
    GET_leads_analytics seeded = (resolved (json 200 a), seeded)
    ∧ AnalyticsData.convertedLeads a
      = from_option id 0 (AnalyticsData.leadsByStage a !! "CLOSED_WON")
    ∧ from_option id 0 (AnalyticsData.leadsByStatus a !! "REJECTED")
      = from_option id 0 (AnalyticsData.leadsByStage a !! "CLOSED_LOST").
Proof.
  apply analytics_of_seeded.
  repeat constructor; simpl; try done; intros [=].
Defined.

(** * Decimal numerals as [page] and [limit] *)

Lemma digitChar_facts (d : nat) :
  d < 10 →
  JS.decimalDigit (digitChar d) = Some (Z.of_nat d)
  ∧ (digitChar d =? "+")%char = false
  ∧ (digitChar d =? "-")%char = false
  ∧ (digitChar d =? "x")%char = false ∧ (digitChar d =? "X")%char = false
  ∧ (digitChar d =? "o")%char = false ∧ (digitChar d =? "O")%char = false
  ∧ (digitChar d =? "b")%char = false ∧ (digitChar d =? "B")%char = false
  ∧ digitChar d ≠ "I"%char.
Proof.
  intros Hd.
  do 10 (destruct d as [|d]; [vm_compute; repeat split; congruence|]). lia.
Qed.

Lemma readDigits_numeral (ds : list nat) (acc : Z) (n : nat) :
  Forall (λ d, d < 10) ds →
  JS.readDigits JS.decimalDigit 10 (digitChar <$> ds) acc n
  = (foldl (λ acc d, (acc * 10 + Z.of_nat d)%Z) acc ds, n + length ds, []).
Proof.
  intros Hds. revert acc n.
  induction Hds as [|d ds Hd _ IH]; intros acc n.
  - cbn. by rewrite Nat.add_0_r.
  - rewrite fmap_cons. cbn [JS.readDigits foldl length].
    destruct (digitChar_facts d Hd) as [-> _]. rewrite IH. do 2 f_equal. lia.
Qed.

(** No white space starts or ends with the byte of a digit. *)
Lemma stripOne_digit (d : nat) (rest : list ascii) :
  d < 10 →
  JS.stripOne JS.whiteSpace (digitChar d :: rest) = None
  ∧ JS.stripOne ((λ w, rev w) <$> JS.whiteSpace) (digitChar d :: rest) = None.
Proof.
  intros Hd.
  do 10 (destruct d as [|d]; [split; vm_compute; reflexivity|]). lia.
Qed.

Lemma stripAll_numeral (ds : list nat) (steps : nat) :
  Forall (λ d, d < 10) ds →
  JS.stripAll JS.whiteSpace steps (digitChar <$> ds) = digitChar <$> ds
  ∧ JS.stripAll ((λ w, rev w) <$> JS.whiteSpace) steps (digitChar <$> ds)
    = digitChar <$> ds.
Proof.
  intros [|d ds' Hd _]; destruct steps as [|steps]; try done.
  rewrite fmap_cons. cbn [JS.stripAll].
  destruct (stripOne_digit d (digitChar <$> ds') Hd) as [-> ->]. done.
Qed.

Lemma trimStart_numeral (ds : list nat) :
  Forall (λ d, d < 10) ds → JS.trimStart (digitChar <$> ds) = digitChar <$> ds.
Proof. intros Hds. unfold JS.trimStart. by apply stripAll_numeral. Qed.

Lemma rev_fmap {A B : Type} (f : A → B) (l : list A) : rev (f <$> l) = f <$> rev l.
Proof.
  induction l as [|x l IH]; [done|].
  rewrite fmap_cons. cbn [rev]. by rewrite IH, fmap_app.
Qed.

Lemma trim_numeral (ds : list nat) :
  Forall (λ d, d < 10) ds → JS.trim (digitChar <$> ds) = digitChar <$> ds.
Proof.
  intros Hds. unfold JS.trim, JS.trimEnd. rewrite (trimStart_numeral ds Hds).
  rewrite rev_fmap.
  destruct (stripAll_numeral (rev ds) (length (digitChar <$> ds))) as [_ ->];
    [by apply Forall_rev|].
  by rewrite <- rev_fmap, rev_involutive.
Qed.

Lemma parseNonDecimal_single (c : ascii) : JS.parseNonDecimal [c] = None.
Proof. destruct c as [[] [] [] [] [] [] [] []]; reflexivity. Qed.

Lemma parseNonDecimal_no_prefix (c k : ascii) (rest : list ascii) :
  (k =? "x")%char = false → (k =? "X")%char = false →
  (k =? "o")%char = false → (k =? "O")%char = false →
  (k =? "b")%char = false → (k =? "B")%char = false →
  JS.parseNonDecimal (c :: k :: rest) = None.
Proof.
  intros Hx HX Ho HO Hb HB. unfold JS.parseNonDecimal.
  destruct c as [[] [] [] [] [] [] [] []]; cbv beta iota;
    rewrite ?Hx, ?HX, ?Ho, ?HO, ?Hb, ?HB; reflexivity.
Qed.

Lemma parseNonDecimal_numeral (ds : list nat) :
  Forall (λ d, d < 10) ds → JS.parseNonDecimal (digitChar <$> ds) = None.
Proof.
  intros [|d0 ds' Hd0 Hds']; [done|].
  destruct Hds' as [|d1 ds'' Hd1 _]; rewrite ?fmap_cons.
  - apply parseNonDecimal_single.
  - destruct (digitChar_facts d1 Hd1)
      as (_ & _ & _ & Hx & HX & Ho & HO & Hb & HB & _).
    by apply parseNonDecimal_no_prefix.
Qed.

Lemma spell_nonneg (ds : list nat) : (0 ≤ spell ds)%Z.
Proof.
  unfold spell.
  assert (∀ acc, (0 ≤ acc)%Z →
            (0 ≤ foldl (λ acc d, (acc * 10 + Z.of_nat d)%Z) acc ds)%Z) as Hfold.
  { induction ds as [|d ds IH]; intros acc Hacc; cbn [foldl]; [done|].
    apply IH. lia. }
  by apply Hfold.
Qed.

Lemma Number_numeral (ds : list nat) :
  ds ≠ [] → Forall (λ d, d < 10) ds → (spell ds < 9007199254740992)%Z →
  coercesTo (numeral ds) (spell ds).
Proof.
  intros Hne Hds Hsafe. unfold coercesTo, JS.Number, numeral.
  rewrite list_ascii_of_string_of_list_ascii, (trim_numeral ds Hds).
  pose proof (parseNonDecimal_numeral ds Hds) as Hnon.
  pose proof (readDigits_numeral ds 0 0 Hds) as Hread.
  pose proof (spell_nonneg ds) as Hpos. fold (spell ds) in Hread.
  destruct ds as [|d0 ds']; [done|].
  apply Forall_inv in Hds as Hd0. rewrite fmap_cons in *. cbv beta iota.
  rewrite Hnon.
  destruct (digitChar_facts d0 Hd0) as (_ & -> & -> & Hrest).
  unfold JS.parseUnsigned.
  rewrite bool_decide_eq_false_2 by (intros [= Hd _]; by apply Hrest).
  unfold JS.parseUnsignedDecimal. rewrite Hread. cbv beta iota.
  replace (0 + length (d0 :: ds') + 0 =? 0) with false
    by (cbn [length]; symmetry; apply Nat.eqb_neq; lia).
  cbn [JS.parseExponent].
  set (x := (inject_Z _ * _)%Q).
  assert (x == inject_Z (spell (d0 :: ds')))%Q as Hx.
  { unfold x. change (Z.of_nat 0) with 0%Z. change (0 - 0)%Z with 0%Z.
    rewrite Z.pow_0_r, Z.mul_1_r, Z.add_0_r. cbn [Qpower]. ring. }
  destruct (roundDouble_between x (spell (d0 :: ds')) (spell (d0 :: ds')))
    as (v & Hv & Hlo & Hhi); [lia | lia | rewrite Hx; apply Qle_refl ..|].
  exists v. split; [done|]. by apply Qle_antisym.
Qed.

Lemma coercesTo_unique (s : string) (k k' : Z) :
  coercesTo s k → coercesTo s k' → k = k'.
Proof.
  intros (q & Hq & Hk) (q' & Hq' & Hk'). rewrite Hq in Hq'.
  injection Hq' as <-. rewrite Hk in Hk'. by apply inject_Z_injective.
Qed.

(** A [page] or [limit] written as a decimal numeral (one or more digits
    0-9, leading zeros allowed) that spells an integer below 2^53 is read
    as that integer: the page is accepted exactly when the integer is at
    least 1, the limit exactly when it is from 1 to 100, and the accepted
    value is the integer spelled. *)
Theorem decimal_page_and_limit (ds : list nat) :
  ds ≠ [] → Forall (λ d, d < 10) ds → (spell ds < 9007199254740992)%Z →
  (∀ k, pageSchema (Some (RString (numeral ds))) = inr k
        ↔ k = spell ds ∧ (1 ≤ spell ds)%Z)
  ∧ (∀ k, limitSchema (Some (RString (numeral ds))) = inr k
          ↔ k = spell ds ∧ (1 ≤ spell ds ≤ 100)%Z).
Proof.
  intros Hne Hds Hsafe.
  pose proof (Number_numeral ds Hne Hds Hsafe) as Hnum.
  split; intros k; [rewrite pageSchema_spec|rewrite limitSchema_spec]; split.
  - intros [[[=] _]|(s & [= <-] & Hs & Hk)].
    rewrite (coercesTo_unique _ _ _ Hs Hnum) in *. done.
  - intros [-> Hk]. right. eauto.
  - intros [[[=] _]|(s & [= <-] & Hs & Hk)].
    rewrite (coercesTo_unique _ _ _ Hs Hnum) in *. done.
  - intros [-> Hk]. right. eauto.
Qed.

Lemma decimal_page_and_limit_witness :
  (∀ k, pageSchema (Some (RString "025")) = inr k
        ↔ k = 25%Z ∧ (1 ≤ 25)%Z)
  ∧ (∀ k, limitSchema (Some (RString "025")) = inr k
          ↔ k = 25%Z ∧ (1 ≤ 25 ≤ 100)%Z).
Proof.
  apply (decimal_page_and_limit [0; 2; 5]);
    [done|repeat constructor; lia|vm_compute; reflexivity].
Defined.
